(** * Logging levels per module: a model of [common/flogging/modulelevels.go]

    The Go type [ModuleLevels] keeps a default severity, a map of overrides
    keyed by logger name (the "specs") and a cache of resolved levels.  This
    file embeds its operations ([ActivateSpec], [Level], [calculateLevel],
    [cachedLevel], [DefaultLevel], [Spec], [isValidLoggerName]) as functions
    over an explicit engine state and proves the properties stated for them.

    Go strings are byte strings and are modelled by [string]; Go maps are
    modelled by [gmap], wrapped in [option] because the zero value of a Go map
    is [nil]: reading a nil map finds nothing, writing to it panics.  The
    mutex of the Go type is not modelled: every operation is taken as one
    atomic step of a sequential run. *)

From Stdlib Require Import ZArith Ascii String DecimalString.
From stdpp Require Import gmap strings list fin_maps sorting.
From Equations Require Import Equations.

Local Open Scope Z_scope.

(** ** The parts of Go's [strings] package used by the source *)

Module GoStrings.

(** [strings.Split(s, sep)] for a one-byte separator, the only kind the
    source uses.  The result always has one more piece than [s] has
    separators; in particular [Split "" sep = [""]]. *)
Fixpoint Split (s : string) (sep : ascii) : list string :=
  match s with
  | EmptyString => [EmptyString]
  | String c s' =>
      if Ascii.eqb c sep then EmptyString :: Split s' sep
      else match Split s' sep with
           | [] => [String c EmptyString]
           | w :: ws => String c w :: ws
           end
  end.

(** [strings.Join(elems, sep)]. *)
Definition Join (elems : list string) (sep : string) : string :=
  String.concat sep elems.

(** [strings.HasSuffix(s, suffix)]:
    [len(s) >= len(suffix) && s[len(s)-len(suffix):] == suffix]. *)
Definition HasSuffix (s suffix : string) : bool :=
  (String.length suffix <=? String.length s)%nat
  && String.eqb
       (String.substring (String.length s - String.length suffix)
                         (String.length suffix) s)
       suffix.

(** [strings.TrimSuffix(s, suffix)]: [s] without the suffix when it ends
    with it, [s] itself otherwise.  At most one copy is removed. *)
Definition TrimSuffix (s suffix : string) : string :=
  if HasSuffix s suffix
  then String.substring 0 (String.length s - String.length suffix) s
  else s.

(** [strings.LastIndex(s, substr)] for a one-byte [substr]: the index of
    the last occurrence, or [-1]. *)
Fixpoint LastIndex (s : string) (c : ascii) : Z :=
  match s with
  | EmptyString => -1
  | String a s' =>
      let r := LastIndex s' c in
      if 0 <=? r then r + 1 else if Ascii.eqb a c then 0 else -1
  end.

(** The slice expression [s[:idx]]. *)
Definition slice_to (s : string) (idx : Z) : string :=
  String.substring 0 (Z.to_nat idx) s.

(** [sort.Strings]: ascending order of Go's [<] on strings, which compares
    byte by byte.  The order is total, so the result does not depend on
    the sorting algorithm. *)
Definition sort_Strings (l : list string) : list string :=
  merge_sort String.le l.

End GoStrings.

Import GoStrings.

Definition dot : ascii := "."%char.
Definition colon : ascii := ":"%char.
Definition equals : ascii := "="%char.
Definition comma : ascii := ","%char.

(** [contains s c]: the byte [c] occurs in [s]. *)
Fixpoint contains (s : string) (c : ascii) : bool :=
  match s with
  | EmptyString => false
  | String a s' => Ascii.eqb a c || contains s' c
  end.

(** ** Which override keys a lookup can use

    [applicable loggerName key]: [key] is the name followed by a dot (the
    exact form), or the name itself, or one of its ancestors, that is a part
    of the name that ends just before a dot. *)
Definition applicable (loggerName key : string) : Prop :=
  key = loggerName +:+ "."
  ∨ key = loggerName
  ∨ ∃ rest, loggerName = key +:+ "." +:+ rest.

(** ** The severity scale

    [zapcore.Level], [zapcore.InfoLevel], the [String] method of a level and
    the two functions [IsValidLevel] and [NameToLevel] of [levels.go] are
    used by the source but declared elsewhere.  They are taken as an
    interface. *)

Class SeverityScale := {
  zapcore_Level : Type;
  (** [zapcore.InfoLevel] *)
  InfoLevel : zapcore_Level;
  (** [IsValidLevel(name)] *)
  IsValidLevel : string → bool;
  (** [NameToLevel(name)] *)
  NameToLevel : string → zapcore_Level;
  (** [zapcore.Level.String()], which [%s] and [.String()] print *)
  LevelString : zapcore_Level → string;
}.

(** ** Logger names: [loggerNameRegexp] and [isValidLoggerName] *)

(** The POSIX class [[:alnum:]] of Go's regexp syntax: ASCII letters and
    digits. *)
Definition isAlnum (c : ascii) : bool :=
  let n := nat_of_ascii c in
  ((48 <=? n) && (n <=? 57) || (65 <=? n) && (n <=? 90)
   || (97 <=? n) && (n <=? 122))%nat.

(** The bracket expression [[[:alnum:]_#:-]]. *)
Definition isNameChar (c : ascii) : bool :=
  isAlnum c || Ascii.eqb c "_" || Ascii.eqb c "#" || Ascii.eqb c ":"
  || Ascii.eqb c "-".

(** One [[[:alnum:]_#:-]+] group: at least one character, all of the class. *)
Definition isNameSegment (s : string) : bool :=
  negb (String.eqb s "") && forallb isNameChar (list_ascii_of_string s).

(** [loggerNameRegexp.MatchString(loggerName)] for the anchored pattern
    [^[[:alnum:]_#:-]+(\.[[:alnum:]_#:-]+)*$]: the pieces between the dots
    are each a non-empty run of class characters. *)
Definition isValidLoggerName (loggerName : string) : bool :=
  forallb isNameSegment (Split loggerName dot).

(** The regular expressions the pattern is made of, and what it is for a
    whole string to match one.  The pattern is anchored at both ends, and
    in Go [$] without the multi-line flag matches at the end of the text
    only. *)
Inductive regexp : Type :=
| Class (p : ascii → bool)
| Lit (c : ascii)
| Cat (r1 r2 : regexp)
| Plus (r : regexp)
| Star (r : regexp).

Inductive matches : regexp → string → Prop :=
| matches_class p c : p c = true → matches (Class p) (String c "")
| matches_lit c : matches (Lit c) (String c "")
| matches_cat r1 r2 s1 s2 :
    matches r1 s1 → matches r2 s2 → matches (Cat r1 r2) (s1 +:+ s2)
| matches_plus_one r s : matches r s → matches (Plus r) s
| matches_plus_more r s1 s2 :
    matches r s1 → matches (Plus r) s2 → matches (Plus r) (s1 +:+ s2)
| matches_star_none r : matches (Star r) ""
| matches_star_more r s1 s2 :
    matches r s1 → matches (Star r) s2 → matches (Star r) (s1 +:+ s2).

(** [^[[:alnum:]_#:-]+(\.[[:alnum:]_#:-]+)*$] *)
Definition loggerNameRegexp : regexp :=
  Cat (Plus (Class isNameChar))
      (Star (Cat (Lit dot) (Plus (Class isNameChar)))).

(** ** The engine state *)

Section Engine.
Context {scale : SeverityScale}.

(** A Go [map[string]zapcore.Level]; [None] is the nil map. *)
Definition gomap : Type := option (gmap string zapcore_Level).

(** [m[k]] read with the comma-ok form. *)
Definition map_get (m : gomap) (k : string) : option zapcore_Level :=
  match m with
  | None => None
  | Some g => g !! k
  end.

(** [for k, v := range m]: the entries in some order; none for nil. *)
Definition map_range (m : gomap) : list (string * zapcore_Level) :=
  match m with
  | None => []
  | Some g => map_to_list g
  end.

Record ModuleLevels := mkModuleLevels {
  defaultLevel : zapcore_Level;
  levelCache : gomap;
  specs : gomap;
}.

(** *** [DefaultLevel] *)
Definition DefaultLevel (m : ModuleLevels) : zapcore_Level :=
  defaultLevel m.

(** *** [ActivateSpec] *)

Inductive error :=
| BadSegment (spec field : string)
| NoLoggerSpecified (spec field : string)
| BadLoggerName (spec logger : string).

(** The text of the error, as [errors.Errorf] formats it. *)
Definition Error (e : error) : string :=
  match e with
  | BadSegment spec field =>
      "invalid logging specification '" +:+ spec +:+ "': bad segment '"
        +:+ field +:+ "'"
  | NoLoggerSpecified spec field =>
      "invalid logging specification '" +:+ spec
        +:+ "': no logger specified in segment '" +:+ field +:+ "'"
  | BadLoggerName spec logger =>
      "invalid logging specification '" +:+ spec
        +:+ "': bad logger name '" +:+ logger +:+ "'"
  end.

(** Results of the fallible steps of the parser, with their bind. *)
Definition result (A : Type) : Type := error + A.

Definition bind {A B} (r : result A) (k : A → result B) : result B :=
  match r with
  | inl e => inl e
  | inr a => k a
  end.

(** The two locals [defaultLevel] and [specs] that the loop of
    [ActivateSpec] builds before anything is stored in the engine. *)
Definition locals : Type := zapcore_Level * gmap string zapcore_Level.

(** The inner loop [for _, logger := range loggers]. *)
Fixpoint setLoggers (spec : string) (level : zapcore_Level)
    (loggers : list string) (sp : gmap string zapcore_Level)
    : result (gmap string zapcore_Level) :=
  match loggers with
  | [] => inr sp
  | logger :: rest =>
      if negb (isValidLoggerName (TrimSuffix logger "."))
      then inl (BadLoggerName spec logger)
      else setLoggers spec level rest (<[logger := level]> sp)
  end.

(** The body of the outer loop: one [field] of the spec. *)
Definition activateField (spec field : string) (st : locals)
    : result locals :=
  match Split field equals with
  | [_] =>
      if negb (String.eqb field "") && negb (IsValidLevel field)
      then inl (BadSegment spec field)
      else inr (NameToLevel field, st.2)
  | [loggers; levelName] =>
      if String.eqb loggers "" then inl (NoLoggerSpecified spec field)
      else if negb (String.eqb field "") && negb (IsValidLevel levelName)
      then inl (BadSegment spec field)
      else
        bind (setLoggers spec (NameToLevel levelName)
                         (Split loggers comma) st.2)
             (λ sp, inr (st.1, sp))
  | _ => inl (BadSegment spec field)
  end.

(** The outer loop [for _, field := range strings.Split(spec, ":")]. *)
Fixpoint activateFields (spec : string) (fields : list string)
    (st : locals) : result locals :=
  match fields with
  | [] => inr st
  | field :: rest =>
      bind (activateField spec field st) (activateFields spec rest)
  end.

(** The loop run from the initial locals. *)
Definition parseSpec (spec : string) : result locals :=
  activateFields spec (Split spec colon) (InfoLevel, ∅).

(** [ActivateSpec]: the returned [option error] is Go's [error], [None]
    being [nil]. *)
Definition ActivateSpec (spec : string) (m : ModuleLevels)
    : option error * ModuleLevels :=
  match parseSpec spec with
  | inl e => (Some e, m)
  | inr (d, sp) =>
      (None,
       {| defaultLevel := d; specs := Some sp; levelCache := Some ∅ |})
  end.

(** *** [calculateLevel], [cachedLevel] and [Level] *)

(** The [for] loop of [calculateLevel], started at [candidate].  Each
    round shortens the candidate, which is why the loop ends. *)
Equations? calculateLoop (m : ModuleLevels) (candidate : string)
    : zapcore_Level by wf (String.length candidate) lt :=
  calculateLoop m candidate with map_get (specs m) candidate := {
    | Some lvl => lvl
    | None with Z_le_gt_dec (LastIndex candidate dot) 0 := {
      | left _ => defaultLevel m
      | right _ =>
          calculateLoop m (slice_to candidate (LastIndex candidate dot)) } }.
Proof.
  assert (Hidx : ∀ s, LastIndex s dot < Z.of_nat (String.length s)).
  { intros s. induction s as [|a s IH]; simpl; [lia|].
    destruct (0 <=? LastIndex s dot); [lia|].
    destruct (Ascii.eqb a dot); lia. }
  assert (Hlen : ∀ s n,
    (String.length (String.substring 0 n s) ≤ n)%nat).
  { intros s. induction s as [|a s IH]; intros [|n]; simpl; try lia.
    specialize (IH n). lia. }
  specialize (Hidx candidate).
  specialize (Hlen candidate (Z.to_nat (LastIndex candidate dot))).
  unfold slice_to. lia.
Qed.

Definition calculateLevel (m : ModuleLevels) (loggerName : string)
    : zapcore_Level :=
  calculateLoop m (loggerName +:+ ".").

(** [cachedLevel] returns [(lvl, ok)]; [None] stands for [ok = false]. *)
Definition cachedLevel (m : ModuleLevels) (loggerName : string)
    : option zapcore_Level :=
  map_get (levelCache m) loggerName.

(** [Level] returns the level and leaves the engine with the level
    cached.  [None] is the run-time panic of the store
    [m.levelCache[loggerName] = level] into a nil map. *)
Definition Level (loggerName : string) (m : ModuleLevels)
    : option (zapcore_Level * ModuleLevels) :=
  match cachedLevel m loggerName with
  | Some level => Some (level, m)
  | None =>
      let level := calculateLevel m loggerName in
      match levelCache m with
      | None => None
      | Some cache =>
          Some (level,
                {| defaultLevel := defaultLevel m; specs := specs m;
                   levelCache := Some (<[loggerName := level]> cache) |})
      end
  end.

(** *** [Spec] *)

(** [fmt.Sprintf("%s=%s", k, v)] *)
Definition specField (kv : string * zapcore_Level) : string :=
  kv.1 +:+ "=" +:+ LevelString kv.2.

(** The body of [Spec] for one order [entries] in which [range] hands out
    the overrides. *)
Definition renderSpec (entries : list (string * zapcore_Level))
    (d : zapcore_Level) : string :=
  Join (sort_Strings (specField <$> entries) ++ [LevelString d]) ":".

Definition Spec (m : ModuleLevels) : string :=
  renderSpec (map_range (specs m)) (defaultLevel m).

(** *** Runs of public operations *)

Inductive op :=
| OpActivateSpec (spec : string)
| OpLevel (loggerName : string)
| OpDefaultLevel
| OpSpec.

Inductive output :=
| OutError (e : option error)
| OutLevel (l : zapcore_Level)
| OutString (s : string).

(** One call; [None] when the call panics. *)
Definition exec (o : op) (m : ModuleLevels) : option (output * ModuleLevels) :=
  match o with
  | OpActivateSpec spec =>
      let '(e, m') := ActivateSpec spec m in Some (OutError e, m')
  | OpLevel loggerName =>
      match Level loggerName m with
      | None => None
      | Some (l, m') => Some (OutLevel l, m')
      end
  | OpDefaultLevel => Some (OutLevel (DefaultLevel m), m)
  | OpSpec => Some (OutString (Spec m), m)
  end.

(** A run of calls from [m]: the outputs and the final engine, or [None]
    when some call panics. *)
Fixpoint run (ops : list op) (m : ModuleLevels)
    : option (list output * ModuleLevels) :=
  match ops with
  | [] => Some ([], m)
  | o :: rest =>
      match exec o m with
      | None => None
      | Some (out, m') =>
          match run rest m' with
          | None => None
          | Some (outs, m'') => Some (out :: outs, m'')
          end
      end
  end.

(** *** Notions used to state the properties *)

(** The candidates the loop of [calculateLevel] goes through when started
    at [c]: [c] itself and every non-empty part of [c] that ends just
    before a dot. *)
Definition visited (c k : string) : Prop :=
  k = c ∨ (k ≠ "" ∧ ∃ rest, c = k +:+ String dot rest).

(** Every cached level is the level [calculateLevel] finds now. *)
Definition cache_consistent (m : ModuleLevels) : Prop :=
  ∀ loggerName l,
    cachedLevel m loggerName = Some l → l = calculateLevel m loggerName.

(** The cache map has been made, so that [Level] can store into it. *)
Definition cache_allocated (m : ModuleLevels) : Prop :=
  is_Some (levelCache m).

(** A fresh engine: no override and no cached level yet, whether the maps
    are nil or empty. *)
Definition fresh (m : ModuleLevels) : Prop :=
  map_range (specs m) = [] ∧ map_range (levelCache m) = [].

(** The resolver run on a configuration alone. *)
Definition resolve (cfg : locals) (loggerName : string) : zapcore_Level :=
  calculateLevel
    {| defaultLevel := cfg.1; specs := Some cfg.2; levelCache := None |}
    loggerName.

(** An engine on which some [ActivateSpec] has succeeded, and whatever
    calls came after it. *)
Inductive activated : ModuleLevels → Prop :=
| activated_by spec m m' :
    ActivateSpec spec m = (None, m') → activated m'
| activated_step o m out m' :
    activated m → exec o m = Some (out, m') → activated m'.

(** The number of bytes [c] in [s]. *)
Fixpoint count (s : string) (c : ascii) : nat :=
  match s with
  | EmptyString => 0%nat
  | String a s' => ((if Ascii.eqb a c then 1 else 0) + count s' c)%nat
  end.

(** The reasons for which a segment of a spec is refused: it has more than
    one '=' sign; it starts with its '=' sign, so that the list of loggers
    on the left is empty; one of the loggers listed left of its '=' sign is
    not a logger name once a dot at its end is dropped; its level, which is
    the whole segment when there is no '=' sign and the part after the sign
    otherwise, is not empty and not a valid level. *)
Inductive refused (field : string) : Prop :=
| refused_equals :
    (1 < count field equals)%nat → refused field
| refused_no_logger rest :
    field = "=" +:+ rest → refused field
| refused_logger loggers levelName logger :
    field = loggers +:+ "=" +:+ levelName →
    contains loggers equals = false →
    logger ∈ Split loggers comma →
    isValidLoggerName (TrimSuffix logger ".") = false →
    refused field
| refused_level levelName :
    contains field equals = false → levelName = field →
    levelName ≠ "" → IsValidLevel levelName = false →
    refused field
| refused_logger_level loggers levelName :
    field = loggers +:+ "=" +:+ levelName →
    contains loggers equals = false →
    levelName ≠ "" → IsValidLevel levelName = false →
    refused field.

(** The assignments [logger := level] a segment makes, from left to
    right. *)
Definition fieldAssignments (field : string)
    : list (string * zapcore_Level) :=
  match Split field equals with
  | [loggers; levelName] =>
      (λ logger, (logger, NameToLevel levelName)) <$> Split loggers comma
  | _ => []
  end.

(** The assignments of a whole spec, from left to right. *)
Definition assignments (spec : string) : list (string * zapcore_Level) :=
  concat (fieldAssignments <$> Split spec colon).

(** The segments of a spec that have no '=' sign, from left to right. *)
Definition defaultFields (spec : string) : list string :=
  filter (λ field, contains field equals = false) (Split spec colon).

(** The stores [specs[logger] = level], one after the other. *)
Definition store (sp : gmap string zapcore_Level)
    (kvs : list (string * zapcore_Level)) : gmap string zapcore_Level :=
  foldl (λ acc kv, <[kv.1 := kv.2]> acc) sp kvs.

(** A level the parser can come up with. *)
Definition produced (l : zapcore_Level) : Prop :=
  l = InfoLevel ∨ ∃ name, l = NameToLevel name.


(** A key as [ActivateSpec] stores them. *)
Definition key_ok (k : string) : Prop :=
  isValidLoggerName (TrimSuffix k ".") = true
  ∧ contains k colon = false ∧ contains k equals = false
  ∧ contains k comma = false.

(** What holds of an engine once a spec has been activated: the cache is
    there and current, and the configuration is one the parser built. *)
Definition configured (m : ModuleLevels) : Prop :=
  cache_consistent m ∧ cache_allocated m ∧ produced (defaultLevel m)
  ∧ ∃ sp, specs m = Some sp ∧ map_Forall (λ k l, key_ok k ∧ produced l) sp.

(** The rendering the words "sorted by key" describe: the overrides put in
    the order of their keys, then printed. *)
Definition SpecByKey (m : ModuleLevels) : string :=
  Join ((specField <$>
           merge_sort (λ kv1 kv2, String.le kv1.1 kv2.1) (map_range (specs m)))
        ++ [LevelString (defaultLevel m)]) ":".

(** What the source turns down in a segment: what [refused] lists, and a
    segment that ends with its only '=' sign when the empty name is not a
    valid level. *)
Definition rejected (field : string) : Prop :=
  refused field
  ∨ (IsValidLevel "" = false
     ∧ ∃ loggers, field = loggers +:+ "=" ∧ contains loggers equals = false).

(** A call that is not an [ActivateSpec]. *)
Definition readOnly (o : op) : Prop :=
  match o with
  | OpActivateSpec _ => False
  | _ => True
  end.

End Engine.

(** ** A concrete severity scale *)

(** Modelled from the spec: the levels of the severity scale, which
    [modulelevels.go] takes from [zapcore] and [levels.go].  The spec orders
    them DEBUG < INFO < WARN < ERROR below a sentinel for "disabled". *)
Inductive severity := DEBUG | INFO | WARN | ERROR | DISABLED.

(** Modelled from the spec: the recognized spellings of the level names,
    which [levels.go] declares.  The spec writes the names in capitals; the
    empty name and every other string are not recognized. *)
Definition severity_of_name (name : string) : option severity :=
  if String.eqb name "DEBUG" then Some DEBUG
  else if String.eqb name "INFO" then Some INFO
  else if String.eqb name "WARN" then Some WARN
  else if String.eqb name "ERROR" then Some ERROR
  else None.

(** Modelled from the spec: the name a level prints as, which [zapcore]
    declares.  The spec has conversions between names and values in both
    directions. *)
Definition severity_name (l : severity) : string :=
  match l with
  | DEBUG => "DEBUG"
  | INFO => "INFO"
  | WARN => "WARN"
  | ERROR => "ERROR"
  | DISABLED => "DISABLED"
  end.

(** Modelled from the spec: [IsValidLevel] and [NameToLevel] of [levels.go].
    In the spec [IsValidLevel] is true exactly on the recognized spellings,
    and [NameToLevel] sends an unrecognized or empty name to the info
    level. *)
#[export] Instance spec_scale : SeverityScale := {|
  zapcore_Level := severity;
  InfoLevel := INFO;
  IsValidLevel name := bool_decide (is_Some (severity_of_name name));
  NameToLevel name := default INFO (severity_of_name name);
  LevelString := severity_name;
|}.

(** Modelled from the spec: the engine after its initialization, which is
    not in [modulelevels.go].  The spec has it created empty, with a
    default severity. *)
Definition created_empty `{SeverityScale} (d : zapcore_Level) : ModuleLevels :=
  {| defaultLevel := d; specs := Some ∅; levelCache := Some ∅ |}.

(** The zero value of the Go struct, for a default level [d]: both maps are
    nil. *)
Definition zero_value `{SeverityScale} (d : zapcore_Level) : ModuleLevels :=
  {| defaultLevel := d; specs := None; levelCache := None |}.

(** The zero value at the concrete scale, with the info level as default. *)
Definition zero_engine : ModuleLevels :=
  zero_value (H := spec_scale) INFO.

(** ** The severity scale of the package

    The scale as the package has it outside [modulelevels.go]: the levels
    and their [String] method in [zapcore], a level being an [int8], and the
    payload level, the disabled level, [nameToLevel], [NameToLevel] and
    [IsValidLevel] in [levels.go]. *)

Definition zap_DisabledLevel : Z := -128.






(** * Properties *)

(** ** The helpers on examples *)

Example Split_examples :
  Split "" colon = [""]
  ∧ Split "info:" colon = ["info"; ""]
  ∧ Split "a=b=c" equals = ["a"; "b"; "c"]
  ∧ Split "a,,b" comma = ["a"; ""; "b"]
  ∧ Split "=info" equals = [""; "info"].
Proof. by vm_compute. Qed.

Example TrimSuffix_examples :
  TrimSuffix "a.b." "." = "a.b" ∧ TrimSuffix "a.." "." = "a."
  ∧ TrimSuffix "a" "." = "a" ∧ TrimSuffix "." "." = ""
  ∧ TrimSuffix "" "." = "".
Proof. by vm_compute. Qed.

Example LastIndex_examples :
  LastIndex "a.b.c." dot = 5 ∧ slice_to "a.b.c." 5 = "a.b.c"
  ∧ LastIndex "a.b.c" dot = 3 ∧ slice_to "a.b.c" 3 = "a.b"
  ∧ LastIndex "a" dot = -1 ∧ LastIndex ".a" dot = 0.
Proof. by vm_compute. Qed.

Example sort_Strings_example :
  sort_Strings ["b=x"; "a=x"; "a.b=x"; "a-b=x"; "a1=x"; "aB=x"]
  = ["a-b=x"; "a.b=x"; "a1=x"; "a=x"; "aB=x"; "b=x"].
Proof. by vm_compute. Qed.

Example isValidLoggerName_examples :
  isValidLoggerName "a.b-c_d#e:f.9" = true
  ∧ isValidLoggerName "" = false ∧ isValidLoggerName "a." = false
  ∧ isValidLoggerName ".a" = false ∧ isValidLoggerName "a..b" = false
  ∧ isValidLoggerName "a b" = false ∧ isValidLoggerName "a*" = false.
Proof. by vm_compute. Qed.

(** ** Strings *)

Section StringFacts.

Lemma append_cons a s t : String a s +:+ t = String a (s +:+ t).
Proof. reflexivity. Qed.

Lemma append_empty_l s : "" +:+ s = s.
Proof. reflexivity. Qed.

Lemma append_empty_r s : s +:+ "" = s.
Proof. induction s as [|a s IH]; [done|]. by rewrite append_cons, IH. Qed.

Lemma append_assoc s t u : (s +:+ t) +:+ u = s +:+ (t +:+ u).
Proof.
  induction s as [|a s IH]; [done|]. by rewrite !append_cons, IH.
Qed.

Lemma length_append s t :
  String.length (s +:+ t) = (String.length s + String.length t)%nat.
Proof.
  induction s as [|a s IH]; [done|]. rewrite append_cons. simpl. by rewrite IH.
Qed.

Lemma contains_append s t c :
  contains (s +:+ t) c = contains s c || contains t c.
Proof.
  induction s as [|a s IH]; [done|].
  rewrite append_cons. simpl. rewrite IH. by rewrite orb_assoc.
Qed.

Lemma append_cancel_r s t u : s +:+ u = t +:+ u → s = t.
Proof.
  revert t. induction s as [|a s IH]; intros [|b t] Heq; [done|..].
  - apply (f_equal String.length) in Heq.
    rewrite !length_append in Heq. simpl in Heq. lia.
  - apply (f_equal String.length) in Heq.
    rewrite !length_append in Heq. simpl in Heq. lia.
  - rewrite !append_cons in Heq. injection Heq as -> Heq. f_equal. by apply IH.
Qed.

(** *** [Split] and [Join] *)

Lemma Split_not_nil s sep : Split s sep ≠ [].
Proof.
  destruct s as [|a s]; simpl; [done|].
  destruct (Ascii.eqb a sep); [done|]. by destruct (Split s sep).
Qed.

Lemma Split_append_sep p q sep :
  Split (p +:+ String sep q) sep = Split p sep ++ Split q sep.
Proof.
  induction p as [|a p IH].
  - rewrite append_empty_l. simpl. by rewrite Ascii.eqb_refl.
  - rewrite append_cons. simpl. rewrite IH.
    destruct (Ascii.eqb a sep); [done|].
    pose proof (Split_not_nil p sep). by destruct (Split p sep).
Qed.

Lemma Split_no_sep s sep : contains s sep = false → Split s sep = [s].
Proof.
  induction s as [|a s IH]; [done|]. simpl.
  intros [Ha Hs]%orb_false_elim. rewrite Ha. by rewrite (IH Hs).
Qed.

Lemma Split_cut s t c :
  contains s c = false → Split (s +:+ String c t) c = s :: Split t c.
Proof. intros Hs. by rewrite Split_append_sep, Split_no_sep. Qed.

Lemma Split_pieces_no_sep s sep w :
  w ∈ Split s sep → contains w sep = false.
Proof.
  revert w. induction s as [|a s IH]; intros w; simpl.
  - by intros ->%list_elem_of_singleton.
  - destruct (Ascii.eqb a sep) eqn:Ha.
    + intros [->|Hw]%elem_of_cons; [done|]. by apply IH.
    + pose proof (Split_not_nil s sep).
      destruct (Split s sep) as [|w0 ws]; [done|].
      intros [->|Hw]%elem_of_cons.
      * simpl. rewrite Ha. apply IH. by left.
      * apply IH. by right.
Qed.

Lemma Join_cons_cons x y l sep :
  Join (x :: y :: l) sep = x +:+ sep +:+ Join (y :: l) sep.
Proof. reflexivity. Qed.


(** *** [TrimSuffix] of a dot *)

Lemma substring_append_l s t :
  String.substring 0 (String.length s) (s +:+ t) = s.
Proof.
  induction s as [|a s IH]; [by destruct t|].
  rewrite append_cons. simpl. by rewrite IH.
Qed.

Lemma substring_append_r s t :
  String.substring (String.length s) (String.length t) (s +:+ t) = t.
Proof.
  induction s as [|a s IH]; [|by rewrite append_cons].
  rewrite append_empty_l. simpl.
  induction t as [|b t IHt]; [done|]. simpl. by rewrite IHt.
Qed.

Lemma TrimSuffix_append s suffix : TrimSuffix (s +:+ suffix) suffix = s.
Proof.
  unfold TrimSuffix, HasSuffix. rewrite length_append.
  replace (String.length s + String.length suffix - String.length suffix)%nat
    with (String.length s) by lia.
  rewrite substring_append_r, String.eqb_refl, substring_append_l.
  destruct (String.length suffix <=? _)%nat eqn:E; [done|].
  apply Nat.leb_gt in E. lia.
Qed.

(** *** [LastIndex] and slicing *)

Lemma LastIndex_ge s c : -1 ≤ LastIndex s c.
Proof.
  induction s as [|a s IH]; simpl; [lia|].
  destruct (0 <=? LastIndex s c) eqn:E; [lia|].
  destruct (Ascii.eqb a c); lia.
Qed.

Lemma LastIndex_none s c : LastIndex s c < 0 ↔ contains s c = false.
Proof.
  induction s as [|a s IH]; simpl; [done|].
  pose proof (LastIndex_ge s c).
  destruct (0 <=? LastIndex s c) eqn:E.
  - apply Z.leb_le in E. split; [lia|].
    intros [_ Hs]%orb_false_elim. apply IH in Hs. lia.
  - apply Z.leb_gt in E. apply IH in E. rewrite E, orb_false_r.
    destruct (Ascii.eqb a c); split; (done || lia).
Qed.

(** A last index cuts the string into the slice before it, the byte and a
    rest without the byte. *)
Lemma LastIndex_cut s c :
  0 ≤ LastIndex s c →
  ∃ tail, s = slice_to s (LastIndex s c) +:+ String c tail
          ∧ contains tail c = false
          ∧ Z.of_nat (String.length (slice_to s (LastIndex s c)))
            = LastIndex s c.
Proof.
  unfold slice_to. induction s as [|a s IH]; simpl; [lia|].
  pose proof (LastIndex_ge s c).
  destruct (0 <=? LastIndex s c) eqn:E.
  - apply Z.leb_le in E. intros _.
    destruct (IH E) as (tail & Hs & Htail & Hlen).
    exists tail. replace (Z.to_nat (LastIndex s c + 1))
      with (S (Z.to_nat (LastIndex s c))) by lia.
    simpl. rewrite append_cons. rewrite <- Hs. split_and!; [done..|lia].
  - apply Z.leb_gt in E. destruct (Ascii.eqb a c) eqn:Ha; [|lia].
    intros _. apply Ascii.eqb_eq in Ha as ->. exists s. simpl.
    split_and!; [done| |done]. by apply LastIndex_none.
Qed.

Lemma LastIndex_append_sep k rest c :
  Z.of_nat (String.length k) ≤ LastIndex (k +:+ String c rest) c.
Proof.
  induction k as [|a k IH].
  - rewrite append_empty_l. simpl. pose proof (LastIndex_ge rest c).
    destruct (0 <=? LastIndex rest c) eqn:E; [apply Z.leb_le in E; lia|].
    by rewrite Ascii.eqb_refl.
  - rewrite append_cons. simpl String.length. simpl LastIndex.
    destruct (0 <=? _) eqn:E; [lia|]. apply Z.leb_gt in E. lia.
Qed.

(** Two cuts of one string at the byte [c], the second with no [c] after
    it: the first cut is the second or lies before it. *)
Lemma cut_cases k rest p t c :
  k +:+ String c rest = p +:+ String c t → contains t c = false →
  k = p ∨ ∃ r, p = k +:+ String c r.
Proof.
  revert p. induction k as [|a k IH]; intros [|b p] Heq Ht.
  - by left.
  - rewrite append_empty_l, append_cons in Heq. injection Heq as <- _.
    right. by exists p.
  - rewrite append_empty_l, append_cons in Heq. injection Heq as -> Heq.
    subst t. rewrite contains_append in Ht. simpl in Ht.
    rewrite Ascii.eqb_refl, orb_true_r in Ht. done.
  - rewrite !append_cons in Heq. injection Heq as -> Heq.
    destruct (IH p Heq Ht) as [->|[r ->]]; [by left|].
    right. by exists r.
Qed.

End StringFacts.

(** ** Logger names *)

Section LoggerNames.

Lemma Join_Split s sep : Join (Split s sep) (String sep "") = s.
Proof.
  induction s as [|a s IH]; [done|]. simpl.
  pose proof (Split_not_nil s sep) as Hne.
  destruct (Ascii.eqb_spec a sep) as [->|Ha].
  - destruct (Split s sep) as [|w ws]; [done|].
    rewrite Join_cons_cons, IH. done.
  - destruct (Split s sep) as [|w [|w' ws]]; [done|..].
    + simpl in *. by rewrite IH.
    + rewrite Join_cons_cons in *. by rewrite append_cons, IH.
Qed.

Lemma matches_plus_class p s :
  matches (Plus (Class p)) s
  ↔ s ≠ "" ∧ forallb p (list_ascii_of_string s) = true.
Proof.
  split.
  - intros Hm. remember (Plus (Class p)) as r eqn:Hr.
    induction Hm as [| | |r s Hm _|r s1 s2 Hm1 _ _ IH| |]; try done.
    + injection Hr as ->. inversion Hm; subst. simpl. by rewrite H0.
    + injection Hr as ->. inversion Hm1; subst.
      destruct (IH eq_refl) as [_ IH2]. rewrite append_cons. simpl.
      by rewrite H0, append_empty_l.
  - intros [Hne Hall]. induction s as [|c s IH]; [done|].
    simpl in Hall. apply andb_true_iff in Hall as [Hc Hs].
    destruct s as [|c' s].
    + by apply matches_plus_one, matches_class.
    + change (String c (String c' s)) with (String c "" +:+ String c' s).
      apply matches_plus_more; [by apply matches_class|]. by apply IH.
Qed.

Lemma isNameSegment_matches w :
  isNameSegment w = true ↔ matches (Plus (Class isNameChar)) w.
Proof.
  rewrite matches_plus_class. unfold isNameSegment.
  rewrite andb_true_iff, negb_true_iff, String.eqb_neq. done.
Qed.

Lemma isNameSegment_no_dot w : isNameSegment w = true → contains w dot = false.
Proof.
  unfold isNameSegment. intros [_ Hall]%andb_true_iff.
  induction w as [|c w IH]; [done|]. simpl in *.
  apply andb_true_iff in Hall as [Hc Hw]. rewrite (IH Hw), orb_false_r.
  destruct (Ascii.eqb_spec c dot) as [->|]; done.
Qed.

Lemma matches_tail_valid t :
  matches (Star (Cat (Lit dot) (Plus (Class isNameChar)))) t →
  ∀ w, isNameSegment w = true →
       forallb isNameSegment (Split (w +:+ t) dot) = true.
Proof.
  intros Hm. remember (Star (Cat (Lit dot) (Plus (Class isNameChar)))) as r eqn:Hr.
  induction Hm as [| | | | |r|r s1 s2 Hm1 _ Hm2 IH]; try done.
  - intros w Hw. rewrite append_empty_r.
    rewrite (Split_no_sep _ _ (isNameSegment_no_dot _ Hw)). simpl.
    by rewrite Hw.
  - injection Hr as ->. intros w Hw.
    inversion Hm1 as [| |r1 r2 d w2 Hd Hw2| | | |]; subst.
    inversion Hd; subst. apply isNameSegment_matches in Hw2.
    rewrite append_cons, append_empty_l, append_cons.
    rewrite (Split_cut _ _ _ (isNameSegment_no_dot _ Hw)). simpl.
    rewrite Hw. simpl. by apply IH.
Qed.

Lemma valid_pieces_match w ws :
  isNameSegment w = true → forallb isNameSegment ws = true →
  matches loggerNameRegexp (Join (w :: ws) ".").
Proof.
  intros Hw Hws. unfold loggerNameRegexp.
  assert (∃ t, Join (w :: ws) "." = w +:+ t
               ∧ matches (Star (Cat (Lit dot) (Plus (Class isNameChar)))) t)
    as (t & -> & Ht).
  { clear Hw. revert w. induction ws as [|w2 ws IH]; intros w.
    - exists "". split; [by rewrite append_empty_r|constructor].
    - simpl in Hws. apply andb_true_iff in Hws as [Hw2 Hws].
      destruct (IH Hws w2) as (t & Ht & Hm).
      exists (String dot "" +:+ w2 +:+ t). split.
      + rewrite Join_cons_cons, Ht. done.
      + rewrite <- append_assoc. apply matches_star_more; [|done].
        apply matches_cat; [constructor|]. by apply isNameSegment_matches. }
  apply matches_cat; [|done]. by apply isNameSegment_matches.
Qed.

(** [isValidLoggerName] decides the language of [loggerNameRegexp]. *)
Lemma isValidLoggerName_matches loggerName :
  isValidLoggerName loggerName = true ↔ matches loggerNameRegexp loggerName.
Proof.
  unfold isValidLoggerName. split.
  - intros Hall. rewrite <- (Join_Split loggerName dot).
    pose proof (Split_not_nil loggerName dot).
    destruct (Split loggerName dot) as [|w ws]; [done|]. simpl in Hall.
    apply andb_true_iff in Hall as [Hw Hws]. by apply valid_pieces_match.
  - intros Hm. unfold loggerNameRegexp in Hm.
    inversion Hm as [| |r1 r2 w t Hw Ht| | | |]; subst.
    apply isNameSegment_matches in Hw. by apply matches_tail_valid.
Qed.

End LoggerNames.

(** ** The resolver *)

Section Resolver.
Context {scale : SeverityScale}.
Implicit Types (m : ModuleLevels) (k c : string).

Lemma visited_length c k :
  visited c k → (String.length k ≤ String.length c)%nat.
Proof.
  intros [->|[_ [rest ->]]]; [done|]. rewrite length_append. lia.
Qed.

Lemma visited_stop c k :
  LastIndex c dot ≤ 0 → visited c k → k = c.
Proof.
  intros Hidx [->|[Hk [rest ->]]]; [done|].
  pose proof (LastIndex_append_sep k rest dot).
  destruct k; [done|]. simpl in *. lia.
Qed.

Lemma visited_step c k :
  0 < LastIndex c dot →
  visited c k ↔ k = c ∨ visited (slice_to c (LastIndex c dot)) k.
Proof.
  intros Hidx.
  destruct (LastIndex_cut c dot) as (tail & Hc & Htail & Hlen); [lia|].
  set (c' := slice_to c (LastIndex c dot)) in *.
  assert (c' ≠ "") as Hc' by (intros E; rewrite E in Hlen; simpl in Hlen; lia).
  split.
  - intros [->|[Hk [rest Hrest]]]; [by left|]. right.
    rewrite Hc in Hrest. symmetry in Hrest.
    destruct (cut_cases _ _ _ _ _ Hrest Htail) as [->|[r Hr]]; [by left|].
    right. split; [done|]. by exists r.
  - intros [->|[->|[Hk [rest Hrest]]]]; [by left|right..].
    + split; [done|]. by exists tail.
    + split; [done|]. exists (rest +:+ String dot tail).
      rewrite Hc, Hrest. by rewrite append_assoc, append_cons.
Qed.

(** What the loop returns: the level of the longest visited candidate
    that is an override key, or the default level when there is none. *)
Lemma calculateLoop_longest m c :
  (∃ k, visited c k
        ∧ map_get (specs m) k = Some (calculateLoop m c)
        ∧ ∀ k', visited c k' → is_Some (map_get (specs m) k') →
                (String.length k' ≤ String.length k)%nat)
  ∨ ((∀ k, visited c k → map_get (specs m) k = None)
     ∧ calculateLoop m c = defaultLevel m).
Proof.
  funelim (calculateLoop m c).
  - left. exists candidate. split_and!; [by left|by rewrite Heq|].
    intros k' Hk' _. by apply visited_length.
  - right. split; [|done].
    intros k Hk. by rewrite (visited_stop _ _ l Hk).
  - assert (0 < LastIndex candidate dot) as Hidx by lia.
    destruct H as [(k & Hk & Hget & Hmax)|[Hnone Hdef]].
    + left. exists k. split_and!; [|done|].
      * apply visited_step; auto.
      * intros k' Hk' Hsome. apply visited_step in Hk' as [->|Hk']; [|auto..].
        rewrite Heq0 in Hsome. by destruct Hsome.
    + right. split; [|done].
      intros k [->|Hk]%visited_step; auto.
Qed.

Lemma visited_applicable loggerName k :
  visited (loggerName +:+ ".") k ↔ applicable loggerName k ∧ k ≠ "".
Proof.
  unfold visited, applicable. split.
  - intros [->|[Hk [rest Hrest]]].
    + split; [by left|]. by destruct loggerName.
    + split; [|done]. right. symmetry in Hrest.
      destruct (cut_cases k rest loggerName "" dot Hrest eq_refl)
        as [->|[r ->]]; [by left|].
      right. by exists r.
  - intros [[->|[->|[rest ->]]] Hk]; [by left|right..].
    + split; [done|]. by exists "".
    + split; [done|]. exists (rest +:+ "."). by rewrite !append_assoc.
Qed.

(** The loop as the source writes it. *)
Lemma calculateLoop_eq m c :
  calculateLoop m c =
    match map_get (specs m) c with
    | Some lvl => lvl
    | None =>
        if decide (LastIndex c dot ≤ 0) then defaultLevel m
        else calculateLoop m (slice_to c (LastIndex c dot))
    end.
Proof.
  rewrite calculateLoop_equation_1.
  destruct (map_get (specs m) c); simpl; [done|].
  destruct (Z_le_gt_dec (LastIndex c dot) 0); simpl; case_decide; (done || lia).
Qed.

(** The loop reads the overrides and the default level, not the cache. *)
Lemma calculateLoop_ext m m' c :
  specs m = specs m' → defaultLevel m = defaultLevel m' →
  calculateLoop m c = calculateLoop m' c.
Proof.
  intros Hs Hd. funelim (calculateLoop m c).
  - rewrite (calculateLoop_eq m'), <- Hs, Heq. done.
  - rewrite (calculateLoop_eq m'), <- Hs, Heq0. by rewrite decide_True.
  - rewrite (calculateLoop_eq m'), <- Hs, Heq0.
    rewrite decide_False by lia. auto.
Qed.

Lemma calculateLevel_ext m m' loggerName :
  specs m = specs m' → defaultLevel m = defaultLevel m' →
  calculateLevel m loggerName = calculateLevel m' loggerName.
Proof. apply calculateLoop_ext. Qed.

Lemma calculateLevel_longest m loggerName :
  map_get (specs m) "" = None →
  (∃ key, applicable loggerName key
          ∧ map_get (specs m) key = Some (calculateLevel m loggerName)
          ∧ ∀ key', applicable loggerName key' →
              is_Some (map_get (specs m) key') →
              (String.length key' ≤ String.length key)%nat)
  ∨ ((∀ key, applicable loggerName key → map_get (specs m) key = None)
     ∧ calculateLevel m loggerName = defaultLevel m).
Proof.
  intros Hempty. unfold calculateLevel.
  destruct (calculateLoop_longest m (loggerName +:+ "."))
    as [(k & Hk & Hget & Hmax)|[Hnone Hdef]].
  - left. exists k. split_and!; [by apply visited_applicable|done|].
    intros k' Hk' Hsome. apply Hmax; [|done]. apply visited_applicable.
    split; [done|]. intros ->. rewrite Hempty in Hsome. by destruct Hsome.
  - right. split; [|done]. intros k Hk.
    destruct (decide (k = "")) as [->|Hne]; [done|].
    apply Hnone. by apply visited_applicable.
Qed.

(** The loop reads the overrides at the visited candidates only. *)
Lemma calculateLoop_agree m m' c :
  defaultLevel m = defaultLevel m' →
  (∀ k, visited c k → map_get (specs m) k = map_get (specs m') k) →
  calculateLoop m c = calculateLoop m' c.
Proof.
  intros Hd Hs. funelim (calculateLoop m c).
  - rewrite (calculateLoop_eq m'), <- Hs, Heq by (by left). done.
  - rewrite (calculateLoop_eq m'), <- Hs, Heq0 by (by left).
    by rewrite decide_True.
  - rewrite (calculateLoop_eq m'), <- Hs, Heq0 by (by left).
    rewrite decide_False by lia. apply H; [done|].
    intros k Hk. apply Hs. apply visited_step; [lia|]. by right.
Qed.

Lemma calculateLevel_agree m m' loggerName :
  defaultLevel m = defaultLevel m' →
  (∀ key, applicable loggerName key →
          map_get (specs m) key = map_get (specs m') key) →
  calculateLevel m loggerName = calculateLevel m' loggerName.
Proof.
  intros Hd Hs. apply calculateLoop_agree; [done|].
  intros k [Hk _]%visited_applicable. auto.
Qed.

Lemma calculateLevel_exact m loggerName l :
  map_get (specs m) (loggerName +:+ ".") = Some l →
  calculateLevel m loggerName = l.
Proof.
  intros Hl. unfold calculateLevel. by rewrite calculateLoop_eq, Hl.
Qed.

(** A name without an empty piece between its dots is not a key with a
    trailing dot, and none of its ancestors is. *)
Lemma applicable_trailing_dot loggerName X :
  (∀ w, w ∈ Split loggerName dot → w ≠ "") →
  applicable loggerName (X +:+ ".") → X = loggerName.
Proof.
  intros Hseg [HX|[HX|[rest HX]]].
  - by apply append_cancel_r in HX.
  - exfalso. apply (Hseg ""); [|done]. rewrite <- HX.
    change (X +:+ ".") with (X +:+ String dot "").
    rewrite Split_append_sep. apply elem_of_app. right. by left.
  - exfalso. apply (Hseg ""); [|done]. rewrite HX.
    rewrite !append_assoc.
    change ("." +:+ "." +:+ rest) with (String dot (String dot rest)).
    rewrite Split_append_sep. apply elem_of_app. right.
    simpl. by left.
Qed.

Lemma isValidLoggerName_pieces loggerName :
  isValidLoggerName loggerName = true →
  ∀ w, w ∈ Split loggerName dot → w ≠ "".
Proof.
  unfold isValidLoggerName. rewrite forallb_forall.
  intros Hall w Hw%list_elem_of_In ->. by apply Hall in Hw.
Qed.

(** *** The cache *)

Lemma Level_hit m loggerName l :
  cachedLevel m loggerName = Some l → Level loggerName m = Some (l, m).
Proof. unfold Level. by intros ->. Qed.

Lemma Level_miss m loggerName cache :
  levelCache m = Some cache → cache !! loggerName = None →
  Level loggerName m =
    Some (calculateLevel m loggerName,
          {| defaultLevel := defaultLevel m; specs := specs m;
             levelCache :=
               Some (<[loggerName := calculateLevel m loggerName]> cache) |}).
Proof.
  intros Hc Hmiss. unfold Level, cachedLevel. rewrite Hc. simpl.
  by rewrite Hmiss.
Qed.

Lemma Level_panic m loggerName :
  levelCache m = None → Level loggerName m = None.
Proof. intros Hc. unfold Level, cachedLevel. by rewrite Hc. Qed.

(** With a consistent cache that has been made, [Level] answers what
    [calculateLevel] finds and keeps the configuration and the invariant. *)
Lemma Level_consistent m loggerName :
  cache_consistent m → cache_allocated m →
  ∃ m', Level loggerName m = Some (calculateLevel m loggerName, m')
        ∧ specs m' = specs m ∧ defaultLevel m' = defaultLevel m
        ∧ cache_consistent m' ∧ cache_allocated m'.
Proof.
  intros Hcons [cache Hc].
  destruct (cachedLevel m loggerName) as [l|] eqn:Hl.
  - exists m. rewrite (Level_hit _ _ _ Hl), (Hcons _ _ Hl).
    split_and!; try done. by exists cache.
  - unfold cachedLevel in Hl. rewrite Hc in Hl. simpl in Hl.
    rewrite (Level_miss _ _ _ Hc Hl). eexists. split; [done|].
    split_and!; try done; [|by eexists].
    intros name l. unfold cachedLevel. simpl.
    match goal with
    | |- _ → _ = calculateLevel ?m2 _ =>
        rewrite (calculateLevel_ext m2 m) by done
    end.
    destruct (decide (loggerName = name)) as [->|Hne].
    + rewrite lookup_insert_eq. congruence.
    + rewrite lookup_insert_ne by done. intros Hn. apply Hcons.
      unfold cachedLevel. by rewrite Hc.
Qed.

Lemma Level_preserves m loggerName l m' :
  cache_consistent m → Level loggerName m = Some (l, m') →
  l = calculateLevel m loggerName ∧ specs m' = specs m
  ∧ defaultLevel m' = defaultLevel m ∧ cache_consistent m'
  ∧ cache_allocated m'.
Proof.
  intros Hcons HL. destruct (levelCache m) as [cache|] eqn:Hc.
  - destruct (Level_consistent m loggerName Hcons) as (m2 & HL2 & ?);
      [by eexists|]. rewrite HL in HL2. by injection HL2 as -> ->.
  - by rewrite Level_panic in HL.
Qed.

(** *** [ActivateSpec] stores a parsed configuration or nothing *)

Lemma ActivateSpec_error spec m e :
  parseSpec spec = inl e → ActivateSpec spec m = (Some e, m).
Proof. unfold ActivateSpec. by intros ->. Qed.

Lemma ActivateSpec_ok spec m cfg :
  parseSpec spec = inr cfg →
  ActivateSpec spec m =
    (None, {| defaultLevel := cfg.1; specs := Some cfg.2;
              levelCache := Some ∅ |}).
Proof. unfold ActivateSpec. intros ->. by destruct cfg. Qed.

Lemma ActivateSpec_cases spec m :
  (∃ e, parseSpec spec = inl e ∧ ActivateSpec spec m = (Some e, m))
  ∨ (∃ cfg, parseSpec spec = inr cfg
            ∧ ActivateSpec spec m =
                (None, {| defaultLevel := cfg.1; specs := Some cfg.2;
                          levelCache := Some ∅ |})).
Proof.
  destruct (parseSpec spec) as [e|cfg] eqn:Hp.
  - left. exists e. split; [done|]. by apply ActivateSpec_error.
  - right. exists cfg. split; [done|]. by apply ActivateSpec_ok.
Qed.

Lemma cache_consistent_empty d sp :
  cache_consistent {| defaultLevel := d; specs := sp; levelCache := Some ∅ |}.
Proof. intros name l. unfold cachedLevel. simpl. by rewrite lookup_empty. Qed.

Lemma fresh_zero_value d : fresh (zero_value d).
Proof. done. Qed.

Lemma fresh_created_empty d : fresh (created_empty d).
Proof. split; apply map_to_list_empty. Qed.

Lemma fresh_cache_consistent m : fresh m → cache_consistent m.
Proof.
  intros [_ Hc] name l. unfold cachedLevel.
  destruct (levelCache m) as [cache|]; simpl in *; [|done].
  apply map_to_list_empty_iff in Hc as ->. by rewrite lookup_empty.
Qed.

Lemma exec_consistent o m out m' :
  cache_consistent m → exec o m = Some (out, m') → cache_consistent m'.
Proof.
  intros Hcons. destruct o as [spec|name| |]; simpl.
  - destruct (ActivateSpec_cases spec m) as [(e & _ & ->)|(cfg & _ & ->)];
      intros [= <- <-]; [done|]. apply cache_consistent_empty.
  - destruct (Level name m) as [[l m2]|] eqn:HL; intros [= <- <-].
    by destruct (Level_preserves _ _ _ _ Hcons HL) as (_ & _ & _ & ? & _).
  - by intros [= <- <-].
  - by intros [= <- <-].
Qed.

Lemma run_consistent ops m outs m' :
  cache_consistent m → run ops m = Some (outs, m') → cache_consistent m'.
Proof.
  revert m outs. induction ops as [|o ops IH]; intros m outs Hcons; simpl.
  - by intros [= <- <-].
  - destruct (exec o m) as [[out m1]|] eqn:He; [|done].
    destruct (run ops m1) as [[outs' m2]|] eqn:Hr; [|done].
    intros [= <- <-]. eapply IH; [|done]. by eapply exec_consistent.
Qed.

End Resolver.

(** ** The parser *)

Section ParserFacts.
Context {scale : SeverityScale}.
Implicit Types (sp : gmap string zapcore_Level) (d : zapcore_Level).

Lemma contains_count s c : contains s c = false ↔ count s c = 0%nat.
Proof.
  induction s as [|a s IH]; simpl; [done|].
  destruct (Ascii.eqb a c); simpl; [split; (done || lia)|]. by rewrite IH.
Qed.

Lemma length_Split s c : length (Split s c) = S (count s c).
Proof.
  induction s as [|a s IH]; simpl; [done|].
  destruct (Ascii.eqb a c); simpl; [by rewrite IH|].
  pose proof (Split_not_nil s c). destruct (Split s c); [done|].
  simpl in *. lia.
Qed.

Lemma Split_singleton_inv s c w :
  Split s c = [w] → contains s c = false ∧ w = s.
Proof.
  intros Hs. assert (contains s c = false) as Hc.
  { apply contains_count. pose proof (length_Split s c) as Hl.
    rewrite Hs in Hl. simpl in Hl. lia. }
  split; [done|]. rewrite (Split_no_sep _ _ Hc) in Hs. congruence.
Qed.

Lemma Split_pieces_sub s sep c w :
  w ∈ Split s sep → contains s c = false → contains w c = false.
Proof.
  revert w. induction s as [|a s IH]; intros w; simpl.
  - by intros ->%list_elem_of_singleton.
  - intros Hw [Ha Hs]%orb_false_elim. destruct (Ascii.eqb a sep).
    + apply elem_of_cons in Hw as [->|Hw]; [done|]. by apply IH.
    + pose proof (Split_not_nil s sep).
      destruct (Split s sep) as [|w0 ws]; [done|].
      apply elem_of_cons in Hw as [->|Hw].
      * simpl. rewrite Ha. apply IH; [by left|done].
      * apply IH; [by right|done].
Qed.

Lemma store_app sp l1 l2 : store sp (l1 ++ l2) = store (store sp l1) l2.
Proof. apply foldl_app. Qed.

(** *** The inner loop *)

Lemma setLoggers_inv spec d loggers sp sp' :
  setLoggers spec d loggers sp = inr sp' →
  Forall (λ logger, isValidLoggerName (TrimSuffix logger ".") = true) loggers
  ∧ sp' = store sp ((λ logger, (logger, d)) <$> loggers).
Proof.
  revert sp. induction loggers as [|logger rest IH]; intros sp; simpl.
  - by intros [= <-].
  - destruct (isValidLoggerName (TrimSuffix logger ".")) eqn:Hv; [|done].
    simpl. intros [Hall ->]%IH. split; [by constructor|done].
Qed.

Lemma setLoggers_ok spec d loggers sp :
  Forall (λ logger, isValidLoggerName (TrimSuffix logger ".") = true) loggers →
  setLoggers spec d loggers sp
  = inr (store sp ((λ logger, (logger, d)) <$> loggers)).
Proof.
  intros Hall. revert sp. induction Hall as [|logger rest Hv _ IH]; intros sp.
  - done.
  - simpl. rewrite Hv. simpl. apply IH.
Qed.

(** *** One segment *)

Lemma activateField_inv spec field d0 sp0 d1 sp1 :
  activateField spec field (d0, sp0) = inr (d1, sp1) →
  (contains field equals = false
   ∧ (field = "" ∨ IsValidLevel field = true)
   ∧ d1 = NameToLevel field ∧ sp1 = sp0)
  ∨ (∃ loggers levelName,
       Split field equals = [loggers; levelName]
       ∧ loggers ≠ "" ∧ IsValidLevel levelName = true
       ∧ Forall (λ logger, isValidLoggerName (TrimSuffix logger ".") = true)
                (Split loggers comma)
       ∧ d1 = d0 ∧ sp1 = store sp0 (fieldAssignments field)).
Proof.
  unfold activateField, fieldAssignments.
  destruct (Split field equals) as [|w1 [|w2 [|w3 ws]]] eqn:Hsplit; [done|..|done].
  - apply Split_singleton_inv in Hsplit as [Hc _]. intros Hact. left.
    destruct (String.eqb_spec field "") as [->|Hne]; simpl in *.
    + injection Hact as <- <-. auto.
    + destruct (IsValidLevel field) eqn:Hv; simpl in *; [|done].
      injection Hact as <- <-. auto.
  - intros Hact. right. exists w1, w2. simpl in *.
    destruct (String.eqb_spec w1 "") as [->|Hne]; [done|].
    destruct (String.eqb_spec field "") as [->|Hfield]; [done|]. simpl in *.
    destruct (IsValidLevel w2) eqn:Hv; simpl in *; [|done].
    destruct (setLoggers spec (NameToLevel w2) (Split w1 comma) sp0)
      as [e|sp'] eqn:Hset; simpl in *; [done|].
    injection Hact as <- <-. apply setLoggers_inv in Hset as [Hall ->].
    by split_and!.
Qed.

Lemma activateField_refused spec field st :
  refused field → ∃ e, activateField spec field st = inl e.
Proof.
  intros Href. destruct st as [d0 sp0].
  destruct (activateField spec field (d0, sp0)) as [e|[d1 sp1]] eqn:Hact;
    [by eexists|exfalso].
  apply activateField_inv in Hact
    as [(Hc & Hlevel & _)|(loggers & levelName & Hs & Hne & Hv & Hall & _)].
  - destruct Href as [Hcount|rest ->|lg lv logger -> _ _ _|lv _ -> Hlv Hinv
                      |lg lv -> _ _ _].
    + apply contains_count in Hc. lia.
    + by rewrite contains_append in Hc.
    + rewrite !contains_append in Hc. simpl in Hc.
      by rewrite orb_true_r in Hc.
    + destruct Hlevel; congruence.
    + rewrite !contains_append in Hc. simpl in Hc.
      by rewrite orb_true_r in Hc.
  - destruct Href as [Hcount|rest ->|lg lv logger -> Hlg Hin Hbad|lv Hc _ _ _
                      |lg lv -> Hlg Hlv Hinv].
    + pose proof (length_Split field equals) as Hl.
      rewrite Hs in Hl. simpl in Hl. lia.
    + change ("=" +:+ rest) with ("" +:+ String equals rest) in Hs.
      rewrite Split_cut in Hs by done. by injection Hs as <- _.
    + change (lg +:+ "=" +:+ lv) with (lg +:+ String equals lv) in Hs.
      rewrite Split_cut in Hs by done. injection Hs as <- _.
      rewrite Forall_forall in Hall. apply Hall in Hin. congruence.
    + rewrite (Split_no_sep _ _ Hc) in Hs. done.
    + change (lg +:+ "=" +:+ lv) with (lg +:+ String equals lv) in Hs.
      rewrite Split_cut in Hs by done. injection Hs as <- Hs.
      apply Split_singleton_inv in Hs as [_ ->]. congruence.
Qed.

(** *** The outer loop *)

Lemma activateFields_refused spec fields field st :
  field ∈ fields → refused field →
  ∃ e, activateFields spec fields st = inl e.
Proof.
  intros Hin Href. revert st.
  induction fields as [|f fs IH]; intros st; [by apply elem_of_nil in Hin|].
  simpl. destruct (activateField spec f st) as [e|st'] eqn:Hact; simpl;
    [by eexists|].
  apply elem_of_cons in Hin as [->|Hin]; [|by apply IH].
  destruct (activateField_refused spec f st Href) as [e He]. congruence.
Qed.

Lemma activateFields_inv spec fields d0 sp0 d sp :
  activateFields spec fields (d0, sp0) = inr (d, sp) →
  d = from_option NameToLevel d0
        (last (filter (λ field, contains field equals = false) fields))
  ∧ sp = store sp0 (concat (fieldAssignments <$> fields)).
Proof.
  revert d0 sp0. induction fields as [|f fs IH]; intros d0 sp0; simpl.
  - by intros [= <- <-].
  - destruct (activateField spec f (d0, sp0)) as [e|[d1 sp1]] eqn:Hact;
      simpl; [done|].
    intros [-> ->]%IH.
    apply activateField_inv in Hact
      as [(Hc & _ & -> & ->)|(loggers & levelName & Hs & _ & _ & _ & -> & ->)].
    + rewrite filter_cons_True by done. rewrite last_cons.
      split; [by destruct (last _)|].
      unfold fieldAssignments at 2. by rewrite (Split_no_sep _ _ Hc).
    + rewrite filter_cons_False; [by rewrite store_app|].
      intros Hc. rewrite (Split_no_sep _ _ Hc) in Hs. done.
Qed.

Lemma parseSpec_inv spec d sp :
  parseSpec spec = inr (d, sp) →
  d = from_option NameToLevel InfoLevel (last (defaultFields spec))
  ∧ sp = store ∅ (assignments spec).
Proof. apply activateFields_inv. Qed.

Lemma parseSpec_refused spec field :
  field ∈ Split spec colon → refused field → ∃ e, parseSpec spec = inl e.
Proof. apply activateFields_refused. Qed.

(** The last store to a key is the one that stays. *)
Lemma store_last sp pre k l post :
  k ∉ post.*1 → store sp (pre ++ (k, l) :: post) !! k = Some l.
Proof.
  intros Hk. rewrite store_app. simpl.
  generalize (store sp pre). intros sp1.
  assert (<[k:=l]> sp1 !! k = Some l) as Hl by apply lookup_insert_eq.
  revert Hl. generalize (<[k:=l]> sp1). clear sp1.
  induction post as [|[k' l'] post IH]; intros sp1 Hl; simpl in *; [done|].
  apply not_elem_of_cons in Hk as [Hne Hk]. apply IH; [done|].
  by rewrite lookup_insert_ne.
Qed.

End ParserFacts.


(** ** Engines on which a spec has been activated *)

Section Activated.
Context {scale : SeverityScale}.
Implicit Types (sp : gmap string zapcore_Level) (d : zapcore_Level).

Lemma activateFields_each spec fields st st' :
  activateFields spec fields st = inr st' →
  Forall (λ f, ∃ st0 st1, activateField spec f st0 = inr st1) fields.
Proof.
  revert st. induction fields as [|f fs IH]; intros st; simpl; [done|].
  destruct (activateField spec f st) as [e|st1] eqn:Hact; simpl; [done|].
  intros Hrest. constructor; [by eauto|by eapply IH].
Qed.

Lemma fieldAssignments_ok spec f st0 st1 :
  activateField spec f st0 = inr st1 → contains f colon = false →
  Forall (λ kv, key_ok kv.1 ∧ produced kv.2) (fieldAssignments f).
Proof.
  destruct st0 as [d0 sp0], st1 as [d1 sp1]. intros Hact Hcolon.
  apply activateField_inv in Hact
    as [(Hc & _)|(loggers & levelName & Hs & _ & _ & Hall & _)].
  - unfold fieldAssignments. by rewrite (Split_no_sep _ _ Hc).
  - unfold fieldAssignments. rewrite Hs.
    assert (loggers ∈ Split f equals) as Hin by (rewrite Hs; by left).
    pose proof (Split_pieces_no_sep _ _ _ Hin) as Hleq.
    pose proof (Split_pieces_sub _ _ colon _ Hin Hcolon) as Hlcolon.
    apply Forall_fmap, Forall_forall. intros logger Hlogger. simpl.
    split; [|right; by eexists].
    rewrite Forall_forall in Hall. split_and!.
    + by apply Hall.
    + by eapply Split_pieces_sub.
    + by eapply Split_pieces_sub.
    + by eapply Split_pieces_no_sep.
Qed.

Lemma store_Forall (P : string → zapcore_Level → Prop) sp kvs :
  map_Forall P sp → Forall (λ kv, P kv.1 kv.2) kvs →
  map_Forall P (store sp kvs).
Proof.
  intros Hsp Hkvs. revert sp Hsp.
  induction Hkvs as [|[k l] kvs Hkl _ IH]; intros sp Hsp; [done|].
  simpl. apply IH. by apply map_Forall_insert_2.
Qed.

Lemma parseSpec_ok spec d sp :
  parseSpec spec = inr (d, sp) →
  produced d ∧ map_Forall (λ k l, key_ok k ∧ produced l) sp.
Proof.
  intros Hp. pose proof (parseSpec_inv _ _ _ Hp) as [-> ->]. split.
  - destruct (last (defaultFields spec)) as [f|]; simpl;
      [right; by eexists|by left].
  - apply store_Forall; [apply map_Forall_empty|].
    apply activateFields_each in Hp. unfold assignments.
    apply Forall_concat, Forall_fmap, Forall_forall.
    intros f Hf. rewrite Forall_forall in Hp.
    destruct (Hp f Hf) as (st0 & st1 & Hact).
    eapply fieldAssignments_ok; [done|].
    by eapply Split_pieces_no_sep.
Qed.

Lemma ActivateSpec_configured spec m m' :
  ActivateSpec spec m = (None, m') → configured m'.
Proof.
  intros HA.
  destruct (ActivateSpec_cases spec m) as [(e & _ & He)|(cfg & Hp & He)];
    rewrite He in HA; [done|]. injection HA as <-.
  destruct cfg as [d sp]. apply parseSpec_ok in Hp as [Hd Hsp].
  split_and!; [apply cache_consistent_empty|by eexists|done|by eexists].
Qed.

Lemma exec_configured o m out m' :
  configured m → exec o m = Some (out, m') → configured m'.
Proof.
  intros Hm. destruct o as [spec|name| |]; simpl.
  - destruct (ActivateSpec spec m) as [[e|] m1] eqn:HA; intros [= <- <-].
    + destruct (ActivateSpec_cases spec m) as [(e' & _ & He)|(cfg & _ & He)];
        rewrite He in HA; [|done]. by injection HA as <- <-.
    + by eapply ActivateSpec_configured.
  - destruct (Level name m) as [[l m2]|] eqn:HL; intros [= <- <-].
    destruct Hm as (Hcons & Halloc & Hd & sp & Hs & Hsp).
    destruct (Level_preserves _ _ _ _ Hcons HL) as (_ & Hs2 & Hd2 & ? & ?).
    split_and!; [done|done|by rewrite Hd2|].
    exists sp. by rewrite Hs2.
  - by intros [= <- <-].
  - by intros [= <- <-].
Qed.

Lemma activated_configured m : activated m → configured m.
Proof.
  induction 1 as [spec m m' HA|o m out m' _ IH He].
  - by eapply ActivateSpec_configured.
  - by eapply exec_configured.
Qed.

Lemma configured_no_empty_key m : configured m → map_get (specs m) "" = None.
Proof.
  intros (_ & _ & _ & sp & -> & Hsp). simpl.
  destruct (sp !! "") as [l|] eqn:Hl; [|done].
  by destruct (Hsp _ _ Hl) as [[Hv _] _].
Qed.

(** On a configured engine no call panics. *)
Lemma exec_configured_total o m : configured m → is_Some (exec o m).
Proof.
  intros (Hcons & Halloc & _). destruct o as [spec|name| |]; simpl.
  - by destruct (ActivateSpec spec m).
  - destruct (Level_consistent m name Hcons Halloc) as (m' & -> & _). done.
  - done.
  - done.
Qed.

Lemma run_configured_total ops m : configured m → is_Some (run ops m).
Proof.
  revert m. induction ops as [|o ops IH]; intros m Hm; simpl; [done|].
  destruct (exec_configured_total o m Hm) as [[out m1] He]. rewrite He.
  destruct (IH m1) as [[outs m2] ->]; [by eapply exec_configured|done].
Qed.

End Activated.

(** ** Resolution, the cache and rejection *)

Section ResolutionProperties.
Context {scale : SeverityScale}.

Lemma Level_activated m loggerName :
  activated m →
  fst <$> Level loggerName m = Some (calculateLevel m loggerName).
Proof.
  intros (Hcons & Halloc & _)%activated_configured.
  by destruct (Level_consistent m loggerName Hcons Halloc) as (m' & -> & _).
Qed.

(** C1.  On an engine with the overrides ["a.b" := DEBUG] and the default
    INFO, [Level] answers DEBUG for "a.b.c" and "a.b" and INFO for "a.x"
    and "a".  For every logger name [Level] answers what [calculateLevel]
    finds, and that is the level of the longest override key applicable to
    the name, or the default level when no applicable key is an override. *)
Theorem longest_match_resolution (m : ModuleLevels) :
  activated m →
  (∀ debug info : zapcore_Level,
     specs m = Some {["a.b" := debug]} → defaultLevel m = info →
     fst <$> Level "a.b.c" m = Some debug
     ∧ fst <$> Level "a.b" m = Some debug
     ∧ fst <$> Level "a.x" m = Some info
     ∧ fst <$> Level "a" m = Some info)
  ∧ (∀ loggerName,
       fst <$> Level loggerName m = Some (calculateLevel m loggerName))
  ∧ (∀ loggerName,
       (∃ key, applicable loggerName key
               ∧ map_get (specs m) key = Some (calculateLevel m loggerName)
               ∧ ∀ key', applicable loggerName key' →
                   is_Some (map_get (specs m) key') →
                   (String.length key' ≤ String.length key)%nat)
       ∨ ((∀ key, applicable loggerName key → map_get (specs m) key = None)
          ∧ calculateLevel m loggerName = defaultLevel m)).
Proof.
  intros Hact. split_and!.
  - intros debug info Hs Hd. rewrite !Level_activated by done.
    set (m0 := {| defaultLevel := info; specs := Some {["a.b" := debug]};
                  levelCache := None |}).
    rewrite !(calculateLevel_ext m m0) by done.
    split_and!; vm_compute; reflexivity.
  - intros name. by apply Level_activated.
  - intros name. apply calculateLevel_longest.
    by apply configured_no_empty_key, activated_configured.
Qed.

(** C2, amended.  On an engine with the overrides ["a.b." := ERROR] and
    ["a.b" := DEBUG], [Level] answers ERROR for "a.b" and DEBUG for "a.b.c".
    For every configuration, a key "X." decides the lookup of X; and for
    every other name that has no empty piece between its dots, as every
    name that [isValidLoggerName] accepts, the lookup does not read the key
    "X.": two configurations that differ at that key only give the same
    level. *)
Theorem exact_key_only_for_its_logger :
  (∀ m (err dbg : zapcore_Level),
     activated m →
     specs m = Some {["a.b." := err; "a.b" := dbg]} →
     fst <$> Level "a.b" m = Some err
     ∧ fst <$> Level "a.b.c" m = Some dbg)
  ∧ (∀ m X l,
       map_get (specs m) (X +:+ ".") = Some l → calculateLevel m X = l)
  ∧ (∀ m m' X loggerName,
       (∀ w, w ∈ Split loggerName dot → w ≠ "") →
       loggerName ≠ X →
       defaultLevel m = defaultLevel m' →
       (∀ k, k ≠ X +:+ "." → map_get (specs m) k = map_get (specs m') k) →
       calculateLevel m loggerName = calculateLevel m' loggerName)
  ∧ (∀ loggerName,
       isValidLoggerName loggerName = true →
       ∀ w, w ∈ Split loggerName dot → w ≠ "").
Proof.
  split_and!.
  - intros m err dbg Hact Hs. rewrite !Level_activated by done.
    set (m0 := {| defaultLevel := defaultLevel m;
                  specs := Some {["a.b." := err; "a.b" := dbg]};
                  levelCache := None |}).
    rewrite !(calculateLevel_ext m m0) by done.
    split; vm_compute; reflexivity.
  - apply calculateLevel_exact.
  - intros m m' X name Hseg Hne Hd Hs.
    apply calculateLevel_agree; [done|].
    intros key Hkey. apply Hs. intros ->.
    by apply applicable_trailing_dot in Hkey.
  - apply isValidLoggerName_pieces.
Qed.

(** C3.  From a fresh engine, after any run of [ActivateSpec], [Level],
    [DefaultLevel] and [Spec] calls, every level in the cache is the level
    [calculateLevel] finds against the current overrides and default.  And
    when [Level] has cached a name under one spec and another spec is then
    activated, the next [Level] of that name answers what the resolver
    finds in the configuration parsed from the second spec. *)
Theorem cache_configuration_consistency :
  (∀ m0 ops outs m,
     fresh m0 → run ops m0 = Some (outs, m) → cache_consistent m)
  ∧ (∀ m specA specB loggerName mA vA m1 mB cfgB,
       ActivateSpec specA m = (None, mA) →
       Level loggerName mA = Some (vA, m1) →
       parseSpec specB = inr cfgB →
       ActivateSpec specB m1 = (None, mB) →
       fst <$> Level loggerName mB = Some (resolve cfgB loggerName)).
Proof.
  split.
  - intros m0 ops outs m Hfresh Hrun.
    eapply run_consistent; [|done]. by apply fresh_cache_consistent.
  - intros m specA specB name mA vA m1 mB cfgB _ _ HpB HB.
    rewrite (ActivateSpec_ok _ _ _ HpB) in HB. injection HB as <-.
    erewrite Level_miss; [|done|by rewrite lookup_empty]. simpl.
    f_equal. by apply calculateLevel_ext.
Qed.

(** C4.  When [ActivateSpec] returns an error the engine is the one it was:
    default level, overrides and cache.  So every later [DefaultLevel],
    [Spec] and [Level], and every run of calls, gives what it would have
    given without the failed call.  With the override ["x" := WARN]
    active, [ActivateSpec "bad=segment=here"] fails and [Level "x"] is
    still WARN. *)
Theorem atomic_rejection :
  (∀ spec m e m',
     ActivateSpec spec m = (Some e, m') →
     m' = m
     ∧ DefaultLevel m' = DefaultLevel m ∧ Spec m' = Spec m
     ∧ (∀ loggerName, Level loggerName m' = Level loggerName m)
     ∧ (∀ ops, run ops m' = run ops m))
  ∧ (∀ m (warn : zapcore_Level),
       activated m → specs m = Some {["x" := warn]} →
       ∃ e m', ActivateSpec "bad=segment=here" m = (Some e, m')
               ∧ fst <$> Level "x" m' = Some warn).
Proof.
  split.
  - intros spec m e m' HA.
    destruct (ActivateSpec_cases spec m) as [(e' & _ & He)|(cfg & _ & He)];
      rewrite He in HA; [|done]. by injection HA as <- <-.
  - intros m warn Hact Hs.
    exists (BadSegment "bad=segment=here" "bad=segment=here"), m.
    split; [done|]. rewrite Level_activated by done. f_equal.
    set (m0 := {| defaultLevel := defaultLevel m;
                  specs := Some {["x" := warn]}; levelCache := None |}).
    rewrite (calculateLevel_ext m m0) by done.
    vm_compute. reflexivity.
Qed.

End ResolutionProperties.

(** ** What [ActivateSpec] refuses and what it stores *)

Section ParserProperties.
Context {scale : SeverityScale}.

Lemma Level_allocated m loggerName :
  cache_allocated m →
  ∃ l m', Level loggerName m = Some (l, m') ∧ cache_allocated m'.
Proof.
  intros [cache Hc]. unfold Level, cachedLevel. rewrite Hc. simpl.
  destruct (cache !! loggerName) as [l|]; eexists _, _; (split; [done|]).
  - by exists cache.
  - by eexists.
Qed.

Lemma exec_allocated o m :
  cache_allocated m →
  ∃ out m', exec o m = Some (out, m') ∧ cache_allocated m'.
Proof.
  intros Halloc. destruct o as [spec|name| |]; simpl.
  - destruct (ActivateSpec_cases spec m) as [(e & _ & ->)|(cfg & _ & ->)];
      eexists _, _; (split; [done|]); [done|by eexists].
  - destruct (Level_allocated m name Halloc) as (l & m' & -> & ?). eauto.
  - eauto.
  - eauto.
Qed.

Lemma run_allocated ops m : cache_allocated m → is_Some (run ops m).
Proof.
  revert m. induction ops as [|o ops IH]; intros m Hm; simpl; [done|].
  destruct (exec_allocated o m Hm) as (out & m1 & -> & Hm1).
  by destruct (IH m1 Hm1) as [[outs m2] ->].
Qed.

(** C6, amended.  [ActivateSpec] returns an error when a segment of the
    spec has more than one '=' sign, or starts with its '=' sign, or lists
    left of its '=' sign a logger that [isValidLoggerName] refuses once a
    dot at its end is dropped, or has a level that is not empty and not
    valid; so it refuses "bad..name=INFO".  [Spec] always returns, and
    [Level] returns exactly when the cache map has been made, which is so
    after every [ActivateSpec] that succeeded and stays so: from then on no
    run of calls panics. *)
Theorem invalid_specification_errors :
  (∀ spec field m,
     field ∈ Split spec colon → refused field →
     ∃ e, ActivateSpec spec m = (Some e, m))
  ∧ (∀ m, ∃ e, ActivateSpec "bad..name=INFO" m = (Some e, m))
  ∧ (∀ m, is_Some (exec OpSpec m))
  ∧ (∀ m loggerName, is_Some (Level loggerName m) ↔ cache_allocated m)
  ∧ (∀ spec m m', ActivateSpec spec m = (None, m') → cache_allocated m')
  ∧ (∀ ops m, cache_allocated m → is_Some (run ops m)).
Proof.
  split_and!.
  - intros spec field m Hin Href.
    destruct (parseSpec_refused spec field Hin Href) as [e He].
    exists e. by apply ActivateSpec_error.
  - intros m. unfold ActivateSpec, parseSpec. simpl.
    unfold activateField. simpl.
    destruct (IsValidLevel "INFO"); simpl; eauto.
  - done.
  - intros m name. split.
    + intros [r Hr]. destruct (levelCache m) as [cache|] eqn:Hc; [by eexists|].
      by rewrite Level_panic in Hr.
    + intros Halloc.
      by destruct (Level_allocated m name Halloc) as (l & m' & -> & _).
  - intros spec m m' HA.
    by destruct (ActivateSpec_configured _ _ _ HA) as (_ & ? & _).
  - intros ops m. apply run_allocated.
Qed.

(** C7.  After an [ActivateSpec] that succeeded the default level is the
    level named by the last segment without '=' sign, or the info level when
    the spec has no such segment.  When "DEBUG" is a valid level name,
    [ActivateSpec "DEBUG"] succeeds and leaves no override; afterwards
    [DefaultLevel] is the level of that name and so is [Level] of every
    logger name. *)
Theorem default_level_segments :
  (∀ spec m m',
     ActivateSpec spec m = (None, m') →
     DefaultLevel m'
     = from_option NameToLevel InfoLevel (last (defaultFields spec)))
  ∧ (IsValidLevel "DEBUG" = true →
     ∀ m, ∃ m',
       ActivateSpec "DEBUG" m = (None, m')
       ∧ specs m' = Some ∅
       ∧ DefaultLevel m' = NameToLevel "DEBUG"
       ∧ ∀ loggerName,
           fst <$> Level loggerName m' = Some (NameToLevel "DEBUG")).
Proof.
  split.
  - intros spec m m' HA.
    destruct (ActivateSpec_cases spec m) as [(e & _ & He)|([d sp] & Hp & He)];
      rewrite He in HA; [done|]. injection HA as <-.
    by apply parseSpec_inv in Hp as [-> _].
  - intros Hdebug m. eexists. split.
    { unfold ActivateSpec, parseSpec. simpl. unfold activateField. simpl.
      rewrite Hdebug. simpl. done. }
    split_and!; [done..|]. intros name.
    erewrite Level_miss; [|done|by rewrite lookup_empty]. simpl. f_equal.
    unfold calculateLevel.
    destruct (calculateLoop_longest
      {| defaultLevel := NameToLevel "DEBUG"; levelCache := Some ∅;
         specs := Some ∅ |} (name +:+ ".")) as [(k & _ & Hk & _)|[_ ->]];
      [|done]. simpl in Hk. by rewrite lookup_empty in Hk.
Qed.

(** What the source does with the spec "a=" hangs on the empty name alone:
    the guard [field != ""] of the two-part case is true of "a=". *)
Lemma ActivateSpec_empty_level m :
  ActivateSpec "a=" m
  = if IsValidLevel ""
    then (None, {| defaultLevel := InfoLevel;
                   specs := Some {["a" := NameToLevel ""]};
                   levelCache := Some ∅ |})
    else (Some (BadSegment "a=" "a="), m).
Proof.
  unfold ActivateSpec, parseSpec. simpl. unfold activateField. simpl.
  by destruct (IsValidLevel "").
Qed.

(** C10.  After an [ActivateSpec] that succeeded, a key holds the level of
    the last assignment the spec makes to it, reading from left to right.
    When "ERROR" and "DEBUG" are valid level names,
    [ActivateSpec "a=ERROR:a=DEBUG"] succeeds and [Level "a"] is then the
    level named "DEBUG". *)
Theorem duplicate_keys_last_wins :
  (∀ spec m m' pre k l post,
     ActivateSpec spec m = (None, m') →
     assignments spec = pre ++ (k, l) :: post → k ∉ post.*1 →
     map_get (specs m') k = Some l)
  ∧ (IsValidLevel "ERROR" = true → IsValidLevel "DEBUG" = true →
     ∀ m, ∃ m',
       ActivateSpec "a=ERROR:a=DEBUG" m = (None, m')
       ∧ fst <$> Level "a" m' = Some (NameToLevel "DEBUG")).
Proof.
  split.
  - intros spec m m' pre k l post HA Hassign Hk.
    destruct (ActivateSpec_cases spec m) as [(e & _ & He)|([d sp] & Hp & He)];
      rewrite He in HA; [done|]. injection HA as <-. simpl.
    apply parseSpec_inv in Hp as [_ ->]. rewrite Hassign.
    by apply store_last.
  - intros Herror Hdebug m. eexists. split.
    { unfold ActivateSpec, parseSpec. simpl. unfold activateField. simpl.
      rewrite Herror, Hdebug. simpl. done. }
    erewrite Level_miss; [|done|by rewrite lookup_empty]. simpl. f_equal.
Qed.

End ParserProperties.

(** ** Rendering a configuration and reading it back *)

Section SerializerProperties.
Context {scale : SeverityScale}.
Implicit Types (sp : gmap string zapcore_Level) (d l : zapcore_Level).

Lemma sort_Strings_Permutation fields : sort_Strings fields ≡ₚ fields.
Proof. apply merge_sort_Permutation. Qed.

Lemma sort_Strings_Sorted fields : StronglySorted String.le (sort_Strings fields).
Proof. apply StronglySorted_merge_sort; apply _. Qed.

Lemma sort_Strings_proper fields fields' :
  fields ≡ₚ fields' → sort_Strings fields = sort_Strings fields'.
Proof.
  intros Hperm. apply (StronglySorted_unique String.le).
  - apply sort_Strings_Sorted.
  - apply sort_Strings_Sorted.
  - by rewrite !sort_Strings_Permutation.
Qed.

Lemma renderSpec_proper entries entries' d :
  entries ≡ₚ entries' → renderSpec entries d = renderSpec entries' d.
Proof.
  intros Hperm. unfold renderSpec. f_equal. f_equal.
  apply sort_Strings_proper. by rewrite Hperm.
Qed.

(** C8, amended.  [Spec] returns, joined with ':', one "key=level" field
    per override followed by the name of the default level.  The fields
    stand in the order of the whole field strings, compared byte by byte.
    The string is the same for every order in which the overrides are
    handed out, and for every two engines with the same default level and
    the same level at every key. *)
Theorem canonical_serialization :
  (∀ m, ∃ fields,
     Spec m = Join (fields ++ [LevelString (defaultLevel m)]) ":"
     ∧ fields ≡ₚ specField <$> map_range (specs m)
     ∧ StronglySorted String.le fields)
  ∧ (∀ m entries,
       entries ≡ₚ map_range (specs m) →
       renderSpec entries (defaultLevel m) = Spec m)
  ∧ (∀ m m',
       defaultLevel m = defaultLevel m' →
       (∀ k, map_get (specs m) k = map_get (specs m') k) →
       Spec m = Spec m').
Proof.
  split_and!.
  - intros m. exists (sort_Strings (specField <$> map_range (specs m))).
    split_and!; [done|apply sort_Strings_Permutation|apply sort_Strings_Sorted].
  - intros m entries Hperm. by apply renderSpec_proper.
  - intros m m' Hd Hs. unfold Spec. rewrite Hd. f_equal.
    destruct (specs m) as [sp|], (specs m') as [sp'|]; simpl in *.
    + f_equal. by apply map_eq.
    + assert (sp = ∅) as -> by (by apply map_eq; intros k; rewrite Hs, lookup_empty).
      by rewrite map_to_list_empty.
    + assert (sp' = ∅) as -> by (by apply map_eq; intros k; rewrite <- Hs, lookup_empty).
      by rewrite map_to_list_empty.
    + done.
Qed.

(** *** Reading a rendered configuration back *)

Lemma key_ok_not_empty k : key_ok k → k ≠ "".
Proof. by intros [Hv _] ->. Qed.









End SerializerProperties.

(** ** The properties at the concrete scale *)


Lemma longest_match_resolution_witness :
  let m := (ActivateSpec "a.b=DEBUG" zero_engine).2 in
  fst <$> Level "a.b.c" m = Some DEBUG ∧ fst <$> Level "a.b" m = Some DEBUG
  ∧ fst <$> Level "a.x" m = Some INFO ∧ fst <$> Level "a" m = Some INFO.
Proof.
  intros m.
  assert (activated m) as Hact
    by (by apply (activated_by "a.b=DEBUG" zero_engine)).
  exact (proj1 (longest_match_resolution m Hact) DEBUG INFO eq_refl eq_refl).
Defined.

(** C2 as stated fails for a name with an empty piece between its dots:
    "a..b" lies below "a" and is not "a", and its lookup reads the key
    "a.".  So it is not true of every name other than X that the key "X."
    has no part in its lookup. *)
Lemma exact_key_read_for_empty_piece :
  "a..b" = "a" +:+ "." +:+ ".b"
  ∧ specs (ActivateSpec "a.=ERROR" zero_engine).2 = Some {["a." := ERROR]}
  ∧ fst <$> Level "a..b" (ActivateSpec "a.=ERROR" zero_engine).2 = Some ERROR
  ∧ fst <$> Level "a..b" (ActivateSpec "" zero_engine).2 = Some INFO
  ∧ ¬ (∀ (m m' : ModuleLevels) (X loggerName : string),
         loggerName ≠ X →
         defaultLevel m = defaultLevel m' →
         (∀ k, k ≠ X +:+ "." → map_get (specs m) k = map_get (specs m') k) →
         calculateLevel m loggerName = calculateLevel m' loggerName).
Proof.
  split_and!; [by vm_compute..|]. intros Hclaim.
  assert (calculateLevel (ActivateSpec "a.=ERROR" zero_engine).2 "a..b"
          = calculateLevel (ActivateSpec "" zero_engine).2 "a..b") as Heq.
  { apply (Hclaim _ _ "a"); [done|by vm_compute|]. intros k Hk.
    assert (specs (ActivateSpec "a.=ERROR" zero_engine).2
            = Some {["a." := ERROR]}) as -> by (by vm_compute).
    assert (specs (ActivateSpec "" zero_engine).2 = Some ∅) as ->
      by (by vm_compute).
    simpl. by rewrite lookup_singleton_ne, lookup_empty. }
  by vm_compute in Heq.
Qed.

Lemma exact_key_only_for_its_logger_witness :
  let m := (ActivateSpec "a.b.=ERROR:a.b=DEBUG" zero_engine).2 in
  let m' := (ActivateSpec "a.b=DEBUG" zero_engine).2 in
  (fst <$> Level "a.b" m = Some ERROR ∧ fst <$> Level "a.b.c" m = Some DEBUG)
  ∧ calculateLevel m "a.b" = ERROR
  ∧ calculateLevel m "a.b.c" = calculateLevel m' "a.b.c".
Proof.
  intros m m'.
  destruct (exact_key_only_for_its_logger) as (Hex & Hexact & Hother & Hvalid).
  split; [|split].
  - apply Hex; [|done].
    by apply (activated_by "a.b.=ERROR:a.b=DEBUG" zero_engine).
  - by apply Hexact.
  - apply (Hother m m' "a.b" "a.b.c"); [|done|done|].
    + by apply Hvalid.
    + intros k Hk.
      assert (specs m = Some (<["a.b." := ERROR]> {["a.b" := DEBUG]})) as ->
        by (by vm_compute).
      assert (specs m' = Some {["a.b" := DEBUG]}) as -> by (by vm_compute).
      simpl. by rewrite lookup_insert_ne.
Defined.

Lemma cache_configuration_consistency_witness :
  let ops := [OpActivateSpec "m.n=DEBUG"; OpLevel "m.n"; OpSpec;
              OpActivateSpec "m.n=ERROR"; OpLevel "m.n"; OpDefaultLevel] in
  let mA := (ActivateSpec "m.n=DEBUG" zero_engine).2 in
  (∃ outs m, run ops zero_engine = Some (outs, m) ∧ cache_consistent m)
  ∧ (∃ m1, Level "m.n" mA = Some (DEBUG, m1)
           ∧ fst <$> Level "m.n" (ActivateSpec "m.n=ERROR" m1).2 = Some ERROR).
Proof.
  intros ops mA.
  destruct cache_configuration_consistency as [Hinv Hnew]. split.
  - destruct (run ops zero_engine) as [[outs m]|] eqn:Hrun; [|done].
    exists outs, m. split; [done|].
    by apply (Hinv zero_engine ops outs m).
  - destruct (Level "m.n" mA) as [[vA m1]|] eqn:HL; [|done].
    assert (vA = DEBUG) as -> by (vm_compute in HL; by injection HL).
    exists m1. split; [done|].
    exact (Hnew zero_engine "m.n=DEBUG" "m.n=ERROR" "m.n" mA DEBUG m1
                (ActivateSpec "m.n=ERROR" m1).2 (INFO, {["m.n" := ERROR]})
                eq_refl HL eq_refl eq_refl).
Defined.

Lemma atomic_rejection_witness :
  let m := (ActivateSpec "x=WARN" zero_engine).2 in
  (ActivateSpec "bad=segment=here" m).1
    = Some (BadSegment "bad=segment=here" "bad=segment=here")
  ∧ (ActivateSpec "bad=segment=here" m).2 = m
  ∧ ∃ e m', ActivateSpec "bad=segment=here" m = (Some e, m')
            ∧ fst <$> Level "x" m' = Some WARN.
Proof.
  intros m. destruct atomic_rejection as [Hsame Hx].
  split; [done|]. split.
  - by apply (Hsame "bad=segment=here" m
                (BadSegment "bad=segment=here" "bad=segment=here")).
  - apply Hx; [|done]. by apply (activated_by "x=WARN" zero_engine).
Defined.



(** C6 as stated fails on an engine that is still the zero value of the Go
    struct: [Level] panics there, storing into the nil cache map, while
    [DefaultLevel] and [Spec] return. *)
Lemma level_panics_on_zero_value :
  levelCache zero_engine = None
  ∧ cachedLevel zero_engine "x" = None
  ∧ calculateLevel zero_engine "x" = INFO
  ∧ Level "x" zero_engine = None
  ∧ run [OpDefaultLevel; OpSpec] zero_engine
    = Some ([OutLevel INFO; OutString "INFO"], zero_engine)
  ∧ run [OpDefaultLevel; OpSpec; OpLevel "x"] zero_engine = None
  ∧ ¬ (∀ (m : ModuleLevels) (loggerName : string),
         is_Some (Level loggerName m)).
Proof.
  split_and!; [by vm_compute..|]. intros Hclaim.
  destruct (Hclaim zero_engine "x") as [r Hr].
  vm_compute in Hr. discriminate Hr.
Qed.

Lemma invalid_specification_errors_witness :
  (∃ e, ActivateSpec "a=DEBUG:bad..name=INFO" zero_engine
        = (Some e, zero_engine))
  ∧ (∃ e, ActivateSpec "a=b=c" zero_engine = (Some e, zero_engine))
  ∧ (∃ e, ActivateSpec "=INFO" zero_engine = (Some e, zero_engine))
  ∧ (∃ e, ActivateSpec "a=info" zero_engine = (Some e, zero_engine))
  ∧ is_Some (Level "a" (ActivateSpec "a=DEBUG" zero_engine).2)
  ∧ is_Some (run [OpLevel "a"; OpSpec; OpLevel "b"]
                 (ActivateSpec "a=DEBUG" zero_engine).2).
Proof.
  destruct (invalid_specification_errors (scale := spec_scale))
    as (Href & _ & _ & HLevel & Halloc & Hrun).
  assert (cache_allocated (ActivateSpec "a=DEBUG" zero_engine).2) as Ha
    by (by apply (Halloc "a=DEBUG" zero_engine)).
  split_and!.
  - apply (Href _ "bad..name=INFO"); [by vm_compute; right; left|].
    by apply (refused_logger _ "bad..name" "INFO" "bad..name");
      [| |vm_compute; left|].
  - apply (Href _ "a=b=c"); [by vm_compute; left|].
    apply refused_equals. vm_compute. lia.
  - apply (Href _ "=INFO"); [by vm_compute; left|].
    by apply (refused_no_logger _ "INFO").
  - apply (Href _ "a=info"); [by vm_compute; left|].
    by apply (refused_logger_level _ "a" "info").
  - by apply HLevel.
  - by apply Hrun.
Defined.

Lemma default_level_segments_witness :
  DefaultLevel (ActivateSpec "ERROR:a=INFO:DEBUG:b=WARN" zero_engine).2 = DEBUG
  ∧ ∃ m', ActivateSpec "DEBUG" zero_engine = (None, m')
          ∧ specs m' = Some ∅
          ∧ DefaultLevel m' = DEBUG
          ∧ ∀ loggerName, fst <$> Level loggerName m' = Some DEBUG.
Proof.
  destruct (default_level_segments (scale := spec_scale)) as [Hlast Hdebug].
  split.
  - exact (Hlast "ERROR:a=INFO:DEBUG:b=WARN" zero_engine
                 (ActivateSpec "ERROR:a=INFO:DEBUG:b=WARN" zero_engine).2
                 eq_refl).
  - exact (Hdebug eq_refl zero_engine).
Defined.

(** C8 as stated fails when one key is the start of another: the field of
    "a.b" comes before the field of "a", since '.' is below '='.  So [Spec]
    is not the rendering in the order of the keys. *)
Lemma fields_not_in_key_order :
  specs (ActivateSpec "a=INFO:a.b=DEBUG" zero_engine).2
  = Some {["a" := INFO; "a.b" := DEBUG]}
  ∧ Spec (ActivateSpec "a=INFO:a.b=DEBUG" zero_engine).2
    = "a.b=DEBUG:a=INFO:INFO"
  ∧ SpecByKey (ActivateSpec "a=INFO:a.b=DEBUG" zero_engine).2
    = "a=INFO:a.b=DEBUG:INFO"
  ∧ ¬ (∀ m : ModuleLevels, Spec m = SpecByKey m).
Proof.
  split_and!; [by vm_compute..|]. intros Hclaim.
  specialize (Hclaim (ActivateSpec "a=INFO:a.b=DEBUG" zero_engine).2).
  vm_compute in Hclaim. discriminate Hclaim.
Qed.

Lemma canonical_serialization_witness :
  let m := (ActivateSpec "b=WARN:a=INFO:a.b=DEBUG" zero_engine).2 in
  let m' := (ActivateSpec "a.b=DEBUG:b=WARN:ERROR:a=INFO:INFO" zero_engine).2 in
  Spec m = "a.b=DEBUG:a=INFO:b=WARN:INFO"
  ∧ renderSpec (reverse (map_range (specs m))) (defaultLevel m) = Spec m
  ∧ Spec m = Spec m'.
Proof.
  intros m m'.
  destruct (canonical_serialization (scale := spec_scale))
    as (_ & Horder & Hsame).
  split_and!.
  - by vm_compute.
  - apply Horder. apply reverse_Permutation.
  - apply Hsame; [done|]. intros k.
    by assert (specs m = specs m') as -> by (by vm_compute).
Defined.

(** C9.  The source refuses a segment whose level, after the '=' sign, is
    empty: the test [field != ""] in that case looks at the whole segment,
    which has an '=' sign in it, so the empty level goes to [IsValidLevel],
    and the empty name is not a valid level.  A segment without '=' sign may
    be empty and then means the info level. *)
Theorem empty_level_after_equals_refused (m : ModuleLevels) :
  IsValidLevel "" = false
  ∧ ActivateSpec "a=" m = (Some (BadSegment "a=" "a="), m)
  ∧ Error (BadSegment "a=" "a=")
    = "invalid logging specification 'a=': bad segment 'a='"
  ∧ (ActivateSpec "" m).1 = None
  ∧ DefaultLevel (ActivateSpec "" m).2 = INFO.
Proof. by vm_compute. Qed.

Lemma duplicate_keys_last_wins_witness :
  let m := (ActivateSpec "a,b=ERROR:c=WARN:a=DEBUG:b,b=INFO" zero_engine).2 in
  map_get (specs m) "a" = Some DEBUG
  ∧ ∃ m', ActivateSpec "a=ERROR:a=DEBUG" zero_engine = (None, m')
          ∧ fst <$> Level "a" m' = Some DEBUG.
Proof.
  intros m.
  destruct (duplicate_keys_last_wins (scale := spec_scale)) as [Hlast Hex].
  split.
  - apply (Hlast "a,b=ERROR:c=WARN:a=DEBUG:b,b=INFO" zero_engine m
                 [("a", ERROR); ("b", ERROR); ("c", WARN)] "a" DEBUG
                 [("b", INFO); ("b", INFO)]); [done|done|].
    by vm_compute; intros [[=]|[[=]|[]%elem_of_nil]%elem_of_cons]%elem_of_cons.
  - exact (Hex eq_refl eq_refl zero_engine).
Defined.

(** * Further properties of the source *)

(** ** More on strings and logger names *)

Section NameProperties.

Lemma substring_split s n :
  (n ≤ String.length s)%nat →
  s = String.substring 0 n s +:+ String.substring n (String.length s - n) s.
Proof.
  revert n. induction s as [|a s IH]; intros [|n] Hn; simpl in *; try lia.
  - done.
  - rewrite append_empty_l. f_equal.
    clear. induction s as [|b s IH]; [done|]. simpl. by rewrite <- IH.
  - rewrite append_cons. f_equal. apply IH. lia.
Qed.

Lemma HasSuffix_append s suffix :
  HasSuffix s suffix = true → ∃ p, s = p +:+ suffix.
Proof.
  unfold HasSuffix. intros [Hlen Heq]%andb_true_iff.
  apply Nat.leb_le in Hlen. apply String.eqb_eq in Heq.
  exists (String.substring 0 (String.length s - String.length suffix) s).
  pose proof (substring_split s (String.length s - String.length suffix))
    as Hsplit.
  replace (String.length s - (String.length s - String.length suffix))%nat
    with (String.length suffix) in Hsplit by lia.
  rewrite Heq in Hsplit. apply Hsplit. lia.
Qed.

Lemma TrimSuffix_cases s suffix :
  (∃ p, s = p +:+ suffix ∧ TrimSuffix s suffix = p)
  ∨ (TrimSuffix s suffix = s ∧ ∀ p, s ≠ p +:+ suffix).
Proof.
  destruct (HasSuffix s suffix) eqn:Hsuf.
  - left. destruct (HasSuffix_append _ _ Hsuf) as [p ->].
    exists p. split; [done|]. apply TrimSuffix_append.
  - right. split; [unfold TrimSuffix; by rewrite Hsuf|].
    intros p ->. unfold HasSuffix in Hsuf.
    rewrite length_append in Hsuf.
    replace (String.length p + String.length suffix - String.length suffix)%nat
      with (String.length p) in Hsuf by lia.
    rewrite substring_append_r, String.eqb_refl, andb_true_r in Hsuf.
    apply Nat.leb_gt in Hsuf. lia.
Qed.

Lemma isValidLoggerName_no_trailing_dot n :
  isValidLoggerName (n +:+ ".") = false.
Proof.
  unfold isValidLoggerName.
  change (n +:+ ".") with (n +:+ String dot "").
  rewrite Split_append_sep, forallb_app. simpl. apply andb_false_r.
Qed.

End NameProperties.

(** ** More on the parser *)

Section ParserMore.
Context {scale : SeverityScale}.
Implicit Types (sp : gmap string zapcore_Level) (d : zapcore_Level).

Lemma Split_two_inv field w1 w2 :
  Split field equals = [w1; w2] →
  field = w1 +:+ "=" +:+ w2
  ∧ contains w1 equals = false ∧ contains w2 equals = false.
Proof.
  intros Hs. pose proof (Join_Split field equals) as HJ. rewrite Hs in HJ.
  split; [by rewrite <- HJ|].
  split; eapply Split_pieces_no_sep; rewrite Hs; [by left|by right; left].
Qed.

Lemma setLoggers_error spec d loggers sp e :
  setLoggers spec d loggers sp = inl e →
  ∃ logger, logger ∈ loggers
            ∧ isValidLoggerName (TrimSuffix logger ".") = false
            ∧ e = BadLoggerName spec logger.
Proof.
  revert sp. induction loggers as [|logger rest IH]; intros sp; simpl; [done|].
  destruct (isValidLoggerName (TrimSuffix logger ".")) eqn:Hv; simpl.
  - intros (lg & Hin & Hbad & ->)%IH. exists lg. split; [by right|done].
  - intros [= <-]. exists logger. split; [by left|done].
Qed.

Lemma activateField_default spec field d0 sp0 :
  contains field equals = false → field = "" ∨ IsValidLevel field = true →
  activateField spec field (d0, sp0) = inr (NameToLevel field, sp0).
Proof.
  intros Hc Hl. unfold activateField. rewrite (Split_no_sep _ _ Hc).
  destruct Hl as [->|Hl]; [done|]. by rewrite Hl, andb_false_r.
Qed.

Lemma activateField_assign spec field loggers levelName d0 sp0 :
  Split field equals = [loggers; levelName] →
  loggers ≠ "" → IsValidLevel levelName = true →
  Forall (λ logger, isValidLoggerName (TrimSuffix logger ".") = true)
         (Split loggers comma) →
  activateField spec field (d0, sp0)
  = inr (d0, store sp0 (fieldAssignments field)).
Proof.
  intros Hs Hne Hv Hall. unfold activateField, fieldAssignments. rewrite Hs.
  apply String.eqb_neq in Hne. rewrite Hne, Hv, andb_false_r. simpl.
  by rewrite setLoggers_ok.
Qed.

(** What an error of one segment says, and why it is raised. *)
Lemma activateField_error spec field st e :
  activateField spec field st = inl e →
  rejected field
  ∧ (e = BadSegment spec field
     ∨ e = NoLoggerSpecified spec field
     ∨ ∃ loggers levelName logger,
         field = loggers +:+ "=" +:+ levelName
         ∧ contains loggers equals = false
         ∧ logger ∈ Split loggers comma
         ∧ e = BadLoggerName spec logger).
Proof.
  unfold activateField. pose proof (length_Split field equals) as Hlen.
  destruct (Split field equals) as [|w1 [|w2 [|w3 ws]]] eqn:Hs.
  - done.
  - apply Split_singleton_inv in Hs as [Hc _].
    destruct (String.eqb_spec field "") as [->|Hne]; simpl; [done|].
    destruct (IsValidLevel field) eqn:Hv; simpl; [done|].
    intros [= <-]. split; [|by left]. left. by eapply refused_level.
  - apply Split_two_inv in Hs as (Hfield & Hw1 & Hw2).
    destruct (String.eqb_spec w1 "") as [->|Hne].
    { intros [= <-]. split; [|by right; left]. left.
      by apply (refused_no_logger _ w2). }
    destruct (String.eqb_spec field "") as [Hf|_].
    { rewrite Hf in Hfield. by destruct w1. }
    simpl. destruct (IsValidLevel w2) eqn:Hv; simpl.
    + destruct (setLoggers spec (NameToLevel w2) (Split w1 comma) st.2)
        as [e'|sp'] eqn:Hset; simpl; [|done].
      intros [= <-]. apply setLoggers_error in Hset as (lg & Hin & Hbad & ->).
      split; [left; by eapply refused_logger|].
      right; right. by exists w1, w2, lg.
    + intros [= <-]. split; [|by left].
      destruct (decide (w2 = "")) as [->|Hw2ne].
      * right. split; [done|]. by exists w1.
      * left. by eapply refused_logger_level.
  - intros [= <-]. split; [|by left]. left. apply refused_equals.
    simpl in Hlen. lia.
Qed.

Lemma activateField_rejected spec field st :
  rejected field → ∃ e, activateField spec field st = inl e.
Proof.
  intros [Href|(Hempty & loggers & -> & Hc)];
    [by apply activateField_refused|].
  unfold activateField.
  change (loggers +:+ "=") with (loggers +:+ String equals "").
  rewrite Split_cut by done. simpl.
  destruct (String.eqb loggers ""); [by eexists|].
  rewrite Hempty.
  destruct (String.eqb_spec (loggers +:+ String equals "") "") as [Hf|_];
    [by destruct loggers|].
  simpl. by eexists.
Qed.

(** The loop stops at the first segment that fails. *)
Lemma activateFields_error spec fields st e :
  activateFields spec fields st = inl e →
  ∃ pre field post st1,
    fields = pre ++ field :: post
    ∧ activateFields spec pre st = inr st1
    ∧ activateField spec field st1 = inl e.
Proof.
  revert st. induction fields as [|f fs IH]; intros st; simpl; [done|].
  destruct (activateField spec f st) as [e'|st'] eqn:Hact; simpl.
  - intros [= <-]. by exists [], f, fs, st.
  - intros (pre & field & post & st1 & -> & Hpre & Herr)%IH.
    exists (f :: pre), field, post, st1. split_and!; [done| |done].
    simpl. by rewrite Hact.
Qed.

Lemma activateFields_app spec l1 l2 st :
  activateFields spec (l1 ++ l2) st
  = bind (activateFields spec l1 st) (activateFields spec l2).
Proof.
  revert st. induction l1 as [|f l1 IH]; intros st; simpl; [done|].
  destruct (activateField spec f st) as [e|st']; simpl; [done|]. apply IH.
Qed.

(** Whether the loop succeeds hangs neither on the text of the spec, which
    only errors quote, nor on the locals it starts from. *)
Lemma activateFields_transport spec fields d0 sp0 d sp spec' d0' sp0' :
  activateFields spec fields (d0, sp0) = inr (d, sp) →
  activateFields spec' fields (d0', sp0')
  = inr (from_option NameToLevel d0'
           (last (filter (λ field, contains field equals = false) fields)),
         store sp0' (concat (fieldAssignments <$> fields))).
Proof.
  revert d0 sp0 d0' sp0'.
  induction fields as [|f fs IH]; intros d0 sp0 d0' sp0'; simpl; [done|].
  destruct (activateField spec f (d0, sp0)) as [e|[d1 sp1]] eqn:Hact;
    simpl; [done|]. intros Hrest.
  apply activateField_inv in Hact
    as [(Hc & Hl & -> & ->)|(lg & lv & Hs & Hne & Hv & Hall & -> & ->)].
  - rewrite (activateField_default spec' f d0' sp0') by done. simpl.
    rewrite (IH _ _ (NameToLevel f) sp0' Hrest).
    rewrite filter_cons_True by done. rewrite last_cons.
    unfold fieldAssignments at 2. rewrite (Split_no_sep _ _ Hc). simpl.
    by destruct (last _).
  - rewrite (activateField_assign spec' f lg lv d0' sp0') by done. simpl.
    rewrite (IH _ _ d0' (store sp0' (fieldAssignments f)) Hrest).
    rewrite filter_cons_False; [by rewrite store_app|].
    intros Hc. rewrite (Split_no_sep _ _ Hc) in Hs. done.
Qed.

Lemma activateFields_accepts spec fields st st' :
  activateFields spec fields st = inr st' →
  Forall (λ field, ¬ rejected field) fields.
Proof.
  intros Hok. apply activateFields_each in Hok.
  eapply Forall_impl; [done|]. intros f (st0 & st1 & Hact) Hrej.
  destruct (activateField_rejected spec f st0 Hrej) as [e He]. congruence.
Qed.

Lemma store_lookup sp kvs k :
  store sp kvs !! k
  = match store ∅ kvs !! k with
    | Some l => Some l
    | None => sp !! k
    end.
Proof.
  revert sp. induction kvs as [|[k' l'] kvs IH]; intros sp; simpl.
  - by rewrite lookup_empty.
  - rewrite IH. rewrite (IH (<[k':=l']> ∅)).
    destruct (store ∅ kvs !! k); [done|].
    destruct (decide (k' = k)) as [->|Hne].
    + by rewrite !lookup_insert_eq.
    + by rewrite !lookup_insert_ne, lookup_empty by done.
Qed.

Lemma store_keys kvs k : is_Some (store ∅ kvs !! k) ↔ k ∈ kvs.*1.
Proof.
  induction kvs as [|[k' l'] kvs IH]; simpl.
  - rewrite lookup_empty. split; [by intros []|by intros ?%elem_of_nil].
  - rewrite store_lookup, elem_of_cons, <- IH.
    destruct (store ∅ kvs !! k) as [l|].
    + split; [right|]; by eexists.
    + destruct (decide (k' = k)) as [->|Hne].
      * rewrite lookup_insert_eq. split; [by left|by eexists].
      * rewrite lookup_insert_ne, lookup_empty by done.
        split; [by intros []|]. intros [?|[]]; by subst.
Qed.

End ParserMore.

(** ** Logger names and override keys *)

Section KeyProperties.
Context {scale : SeverityScale}.

Lemma key_check_cases k :
  isValidLoggerName (TrimSuffix k ".") = true
  ↔ isValidLoggerName k = true
    ∨ ∃ n, k = n +:+ "." ∧ isValidLoggerName n = true.
Proof.
  split.
  - intros Hv. destruct (TrimSuffix_cases k ".") as [(p & -> & Hp)|[Hk _]].
    + right. exists p. by rewrite <- Hp.
    + left. by rewrite <- Hk.
  - intros [Hv|(n & -> & Hn)].
    + destruct (TrimSuffix_cases k ".") as [(p & -> & _)|[-> _]]; [|done].
      by rewrite isValidLoggerName_no_trailing_dot in Hv.
    + by rewrite TrimSuffix_append.
Qed.

(** X1.  [isValidLoggerName] accepts exactly the strings that the pattern
    [^[[:alnum:]_#:-]+(\.[[:alnum:]_#:-]+)*$] matches as a whole. *)
Theorem logger_name_regexp_language (loggerName : string) :
  isValidLoggerName loggerName = true ↔ matches loggerNameRegexp loggerName.
Proof. apply isValidLoggerName_matches. Qed.

(** X2.  Two strings joined by a dot make a logger name exactly when both
    are logger names.  So the parent of a logger name is a logger name, and
    a name that starts or ends with a dot, or has two dots in a row, is
    none. *)
Theorem logger_name_hierarchy (a b : string) :
  isValidLoggerName (a +:+ "." +:+ b)
  = isValidLoggerName a && isValidLoggerName b.
Proof.
  unfold isValidLoggerName.
  change (a +:+ "." +:+ b) with (a +:+ String dot b).
  by rewrite Split_append_sep, forallb_app.
Qed.

(** X3.  The check that [ActivateSpec] makes on a logger of a segment, the
    name check after [TrimSuffix] of one dot, lets through the logger names
    and the logger names followed by one dot, and nothing else. *)
Theorem logger_key_check (logger : string) :
  isValidLoggerName (TrimSuffix logger ".") = true
  ↔ isValidLoggerName logger = true
    ∨ ∃ n, logger = n +:+ "." ∧ isValidLoggerName n = true.
Proof. apply key_check_cases. Qed.

(** X7.  On an engine on which a spec has been activated, every override
    key is a logger name or a logger name followed by one dot; it is not
    empty and has no ':', '=' or ',' in it. *)
Theorem stored_keys_are_names (m : ModuleLevels) (k : string)
    (l : zapcore_Level) :
  activated m → map_get (specs m) k = Some l →
  k ≠ ""
  ∧ contains k colon = false ∧ contains k equals = false
  ∧ contains k comma = false
  ∧ (isValidLoggerName k = true
     ∨ ∃ n, k = n +:+ "." ∧ isValidLoggerName n = true).
Proof.
  intros (_ & _ & _ & sp & Hs & Hsp)%activated_configured Hk.
  rewrite Hs in Hk. simpl in Hk.
  destruct (Hsp k l Hk) as [Hkey _].
  split; [by apply key_ok_not_empty|].
  destruct Hkey as (Hv & ? & ? & ?). split_and!; [done..|].
  by apply key_check_cases.
Qed.

End KeyProperties.

(** ** What [ActivateSpec] accepts, reports and stores *)

Section ActivationProperties.
Context {scale : SeverityScale}.

Lemma parseSpec_error_cases spec e :
  parseSpec spec = inl e →
  ∃ pre field post,
    Split spec colon = pre ++ field :: post
    ∧ Forall (λ f, ¬ rejected f) pre
    ∧ rejected field
    ∧ (e = BadSegment spec field
       ∨ e = NoLoggerSpecified spec field
       ∨ ∃ loggers levelName logger,
           field = loggers +:+ "=" +:+ levelName
           ∧ contains loggers equals = false
           ∧ logger ∈ Split loggers comma
           ∧ e = BadLoggerName spec logger).
Proof.
  intros (pre & field & post & st1 & Hsplit & Hpre & Herr)%activateFields_error.
  exists pre, field, post. apply activateField_error in Herr as [Hrej He].
  split_and!; [done| |done..]. by eapply activateFields_accepts.
Qed.

(** X4.  [ActivateSpec] returns an error exactly when the source turns down
    one of the segments of the spec, and succeeds exactly when it turns
    down none.  A segment is turned down when it has more than one '=', or
    starts with its '=', or lists a logger that fails the name check, or
    has a level that is not empty and not valid, or ends with its only '='
    while the empty name is not a valid level. *)
Theorem ActivateSpec_accepts_iff (spec : string) (m : ModuleLevels) :
  ((∃ e, ActivateSpec spec m = (Some e, m))
   ↔ Exists rejected (Split spec colon))
  ∧ ((∃ m', ActivateSpec spec m = (None, m'))
     ↔ Forall (λ field, ¬ rejected field) (Split spec colon)).
Proof.
  destruct (ActivateSpec_cases spec m) as [(e & Hp & ->)|([d sp] & Hp & ->)].
  - destruct (parseSpec_error_cases _ _ Hp)
      as (pre & field & post & Hsplit & _ & Hrej & _).
    assert (Exists rejected (Split spec colon)) as Hex.
    { rewrite Hsplit. apply Exists_app. right. by left. }
    split; split.
    + done.
    + intros _. by eexists.
    + by intros [m' [=]].
    + intros Hall. exfalso. apply Exists_exists in Hex as (f & Hin & Hr).
      rewrite Forall_forall in Hall. by apply (Hall f Hin).
  - apply activateFields_accepts in Hp as Hall.
    split; split.
    + by intros [e [=]].
    + intros (f & Hin & Hr)%Exists_exists. exfalso.
      rewrite Forall_forall in Hall. by apply (Hall f Hin).
    + done.
    + intros _. by eexists.
Qed.

(** X5.  An error of [ActivateSpec] is about the first segment, from the
    left, that the source turns down: it is the "bad segment" or "no logger
    specified" error of that segment, or the "bad logger name" error of a
    logger listed left of its '='.  Its text starts with the whole spec
    between quotes. *)
Theorem ActivateSpec_reports_first (spec : string) (m m' : ModuleLevels)
    (e : error) :
  ActivateSpec spec m = (Some e, m') →
  (∃ pre field post,
     Split spec colon = pre ++ field :: post
     ∧ Forall (λ f, ¬ rejected f) pre
     ∧ rejected field
     ∧ (e = BadSegment spec field
        ∨ e = NoLoggerSpecified spec field
        ∨ ∃ loggers levelName logger,
            field = loggers +:+ "=" +:+ levelName
            ∧ contains loggers equals = false
            ∧ logger ∈ Split loggers comma
            ∧ e = BadLoggerName spec logger))
  ∧ ∃ detail,
      Error e = "invalid logging specification '" +:+ spec +:+ "': "
                +:+ detail.
Proof.
  intros HA.
  destruct (ActivateSpec_cases spec m) as [(e' & Hp & He)|(cfg & _ & He)];
    rewrite He in HA; [|done]. injection HA as <- <-.
  split; [by apply parseSpec_error_cases|].
  destruct e' as [s f|s f|s lg]; simpl.
  - exists ("bad segment '" +:+ f +:+ "'").
    apply parseSpec_error_cases in Hp
      as (? & ? & ? & _ & _ & _ & [[= -> ->]|[[=]|(? & ? & ? & _ & _ & _ & [=])]]).
    f_equal.
  - exists ("no logger specified in segment '" +:+ f +:+ "'").
    apply parseSpec_error_cases in Hp
      as (? & ? & ? & _ & _ & _ & [[=]|[[= -> ->]|(? & ? & ? & _ & _ & _ & [=])]]).
    f_equal.
  - exists ("bad logger name '" +:+ lg +:+ "'").
    apply parseSpec_error_cases in Hp
      as (? & ? & ? & _ & _ & _ & [[=]|[[=]|(? & ? & ? & _ & _ & _ & [= -> ->])]]).
    f_equal.
Qed.

(** X6.  A successful [ActivateSpec] leaves an engine that the spec alone
    decides, whatever the engine was before: its override keys are exactly
    the loggers the spec assigns a level to, and its cache is empty. *)
Theorem ActivateSpec_replaces (spec : string) (m m' : ModuleLevels) :
  ActivateSpec spec m = (None, m') →
  (∀ m2, ActivateSpec spec m2 = (None, m'))
  ∧ (∀ k, is_Some (map_get (specs m') k) ↔ k ∈ (assignments spec).*1)
  ∧ (∀ loggerName, cachedLevel m' loggerName = None).
Proof.
  intros HA.
  destruct (ActivateSpec_cases spec m) as [(e & _ & He)|([d sp] & Hp & He)];
    rewrite He in HA; [done|]. injection HA as <-.
  split_and!.
  - intros m2. by apply (ActivateSpec_ok spec m2 (d, sp)).
  - intros k. simpl. apply parseSpec_inv in Hp as [_ ->]. apply store_keys.
  - intros name. unfold cachedLevel. simpl. apply lookup_empty.
Qed.

(** X8.  A colon at the end of a spec does not change whether the spec is
    accepted nor the overrides it gives, but the empty segment after the
    colon sets the default level to the level of the empty name. *)
Theorem trailing_colon_resets_default (spec : string) (m : ModuleLevels) :
  (∀ m', ActivateSpec spec m = (None, m') →
         ActivateSpec (spec +:+ ":") m
         = (None, {| defaultLevel := NameToLevel ""; specs := specs m';
                     levelCache := Some ∅ |}))
  ∧ (∀ e, ActivateSpec spec m = (Some e, m) →
          ∃ e', ActivateSpec (spec +:+ ":") m = (Some e', m)).
Proof.
  assert (Hsplit : Split (spec +:+ ":") colon = Split spec colon ++ [""]).
  { change (spec +:+ ":") with (spec +:+ String colon "").
    by rewrite Split_append_sep. }
  split.
  - intros m' HA.
    destruct (ActivateSpec_cases spec m) as [(e & _ & He)|([d sp] & Hp & He)];
      rewrite He in HA; [done|]. injection HA as <-. simpl.
    pose proof (parseSpec_inv _ _ _ Hp) as [_ Hsp].
    assert (parseSpec (spec +:+ ":") = inr (NameToLevel "", sp)) as Hp'.
    { unfold parseSpec. rewrite Hsplit, activateFields_app.
      rewrite (activateFields_transport _ _ _ _ _ _ (spec +:+ ":")
                 InfoLevel ∅ Hp).
      unfold bind, activateFields.
      rewrite activateField_default by auto.
      unfold assignments in Hsp. by rewrite <- Hsp. }
    by rewrite (ActivateSpec_ok _ m _ Hp').
  - intros e HA.
    destruct (ActivateSpec_cases (spec +:+ ":") m)
      as [(e' & _ & He)|([d sp] & Hp & He)]; [by eexists|].
    exfalso. unfold parseSpec in Hp. rewrite Hsplit, activateFields_app in Hp.
    destruct (activateFields (spec +:+ ":") (Split spec colon) (InfoLevel, ∅))
      as [e1|[d1 sp1]] eqn:Hfs; [done|].
    pose proof (activateFields_transport _ _ _ _ _ _ spec InfoLevel ∅ Hfs) as Hok.
    rewrite (ActivateSpec_ok spec m _ Hok) in HA. done.
Qed.

(** X9.  Two specs that are each accepted are accepted when joined by a
    colon.  The joined spec gives every logger the level the second spec
    assigns to it, or else the one the first assigns; its default level is
    the one of the last segment without '=' of the second spec, or else the
    default of the first. *)
Theorem ActivateSpec_joined (spec1 spec2 : string) (m m1 m2 : ModuleLevels) :
  ActivateSpec spec1 m = (None, m1) →
  ActivateSpec spec2 m = (None, m2) →
  ∃ m12,
    ActivateSpec (spec1 +:+ ":" +:+ spec2) m = (None, m12)
    ∧ DefaultLevel m12
      = from_option NameToLevel (DefaultLevel m1) (last (defaultFields spec2))
    ∧ ∀ k, map_get (specs m12) k
           = match map_get (specs m2) k with
             | Some l => Some l
             | None => map_get (specs m1) k
             end.
Proof.
  intros HA1 HA2.
  destruct (ActivateSpec_cases spec1 m) as [(e & _ & He)|([d1 sp1] & Hp1 & He)];
    rewrite He in HA1; [done|]. injection HA1 as <-.
  destruct (ActivateSpec_cases spec2 m) as [(e & _ & He2)|([d2 sp2] & Hp2 & He2)];
    rewrite He2 in HA2; [done|]. injection HA2 as <-.
  set (spec := spec1 +:+ ":" +:+ spec2).
  assert (parseSpec spec
          = inr (from_option NameToLevel d1 (last (defaultFields spec2)),
                 store sp1 (assignments spec2))) as Hp.
  { unfold parseSpec, spec.
    change (spec1 +:+ ":" +:+ spec2) with (spec1 +:+ String colon spec2).
    rewrite Split_append_sep, activateFields_app.
    rewrite (activateFields_transport _ _ _ _ _ _ spec InfoLevel ∅ Hp1).
    simpl.
    rewrite (activateFields_transport _ _ _ _ _ _ spec
               (from_option NameToLevel InfoLevel
                  (last (filter (λ f, contains f equals = false)
                           (Split spec1 colon))))
               (store ∅ (concat (fieldAssignments <$> Split spec1 colon)))
               Hp2).
    by apply parseSpec_inv in Hp1 as [-> ->]. }
  eexists. split; [by apply ActivateSpec_ok|]. simpl. split; [done|].
  intros k. rewrite store_lookup. by apply parseSpec_inv in Hp2 as [_ <-].
Qed.

End ActivationProperties.

(** ** More on lookups and the cache *)

Section LookupProperties.
Context {scale : SeverityScale}.

(** X10.  [Level] caches what it answers: a second [Level] of the same name
    gives the same level and leaves the engine as the first left it.  A
    [Level] call keeps the default level, the overrides and every level
    that was cached before. *)
Theorem Level_memoizes (loggerName : string) (m m' : ModuleLevels)
    (l : zapcore_Level) :
  Level loggerName m = Some (l, m') →
  Level loggerName m' = Some (l, m')
  ∧ cachedLevel m' loggerName = Some l
  ∧ defaultLevel m' = defaultLevel m ∧ specs m' = specs m
  ∧ ∀ name l', cachedLevel m name = Some l' → cachedLevel m' name = Some l'.
Proof.
  unfold Level. destruct (cachedLevel m loggerName) as [l0|] eqn:Hhit.
  - intros [= <- <-]. by rewrite Hhit.
  - destruct (levelCache m) as [cache|] eqn:Hc; [|done]. intros [= <- <-].
    unfold cachedLevel in *. rewrite Hc in Hhit. simpl in *.
    rewrite lookup_insert_eq. split_and!; [done..|].
    intros name l' Hname. rewrite Hc in Hname. simpl in Hname.
    rewrite lookup_insert_ne; [done|]. intros ->. congruence.
Qed.

Lemma exec_readOnly o m out m' :
  cache_consistent m → readOnly o → exec o m = Some (out, m') →
  cache_consistent m' ∧ cache_allocated m'
  ∧ defaultLevel m' = defaultLevel m ∧ specs m' = specs m
  ∨ m' = m.
Proof.
  intros Hcons Hro. destruct o as [spec|name| |]; simpl; [done|..].
  - destruct (Level name m) as [[l m2]|] eqn:HL; intros [= <- <-].
    destruct (Level_preserves _ _ _ _ Hcons HL) as (_ & ? & ? & ? & ?).
    left. by split_and!.
  - intros [= <- <-]. by right.
  - intros [= <- <-]. by right.
Qed.

Lemma run_readOnly ops m outs m' :
  cache_consistent m → Forall readOnly ops → run ops m = Some (outs, m') →
  cache_consistent m'
  ∧ defaultLevel m' = defaultLevel m ∧ specs m' = specs m.
Proof.
  intros Hcons Hro. revert m outs Hcons.
  induction Hro as [|o ops Ho _ IH]; intros m outs Hcons; simpl.
  - by intros [= <- <-].
  - destruct (exec o m) as [[out m1]|] eqn:He; [|done].
    destruct (run ops m1) as [[outs' m2]|] eqn:Hr; [|done].
    intros [= <- <-].
    destruct (exec_readOnly _ _ _ _ Hcons Ho He)
      as [(Hc1 & _ & Hd1 & Hs1)| ->]; [|by eapply IH].
    destruct (IH _ _ Hc1 Hr) as (? & Hd2 & Hs2).
    split_and!; [done|congruence..].
Qed.

(** X11.  On an engine on which a spec has been activated, a run of
    [Level], [DefaultLevel] and [Spec] calls never panics, and it changes
    nothing a caller can see: afterwards [DefaultLevel], [Spec] and [Level]
    of every name answer as before. *)
Theorem reads_change_nothing (ops : list op) (m : ModuleLevels) :
  activated m → Forall readOnly ops →
  ∃ outs m',
    run ops m = Some (outs, m')
    ∧ DefaultLevel m' = DefaultLevel m
    ∧ Spec m' = Spec m
    ∧ ∀ loggerName,
        fst <$> Level loggerName m' = fst <$> Level loggerName m.
Proof.
  intros Hact Hro.
  pose proof (activated_configured m Hact) as Hm.
  destruct (run_configured_total ops m Hm) as [[outs m'] Hrun].
  exists outs, m'. split; [done|].
  destruct Hm as (Hcons & Halloc & _).
  destruct (run_readOnly _ _ _ _ Hcons Hro Hrun) as (Hcons' & Hd & Hs).
  assert (activated m') as Hact'.
  { clear Hro Hcons' Hd Hs Hcons Halloc. revert m outs Hact Hrun.
    induction ops as [|o ops IH]; intros m outs Hact; simpl.
    - by intros [= <- <-].
    - destruct (exec o m) as [[out m1]|] eqn:He; [|done].
      destruct (run ops m1) as [[outs' m2]|] eqn:Hr; [|done].
      intros [= <- <-]. eapply IH; [|done]. by eapply activated_step. }
  split_and!; [done|by unfold Spec; rewrite Hd, Hs|].
  intros name. rewrite !Level_activated by done.
  f_equal. by apply calculateLevel_ext.
Qed.

(** X12.  With one override, whose key is not empty, [calculateLevel]
    returns the level of the override for the names the key is applicable
    to: the name the key is the exact form of, the name equal to the key
    and the names below it; for every other name it returns the default
    level. *)
Theorem single_override (d l : zapcore_Level) (cache : gomap)
    (key loggerName : string) :
  key ≠ "" →
  let m := {| defaultLevel := d; specs := Some {[key := l]};
              levelCache := cache |} in
  (applicable loggerName key → calculateLevel m loggerName = l)
  ∧ (¬ applicable loggerName key → calculateLevel m loggerName = d).
Proof.
  intros Hne m.
  assert (map_get (specs m) "" = None) as Hempty
    by (simpl; by rewrite lookup_singleton_ne).
  destruct (calculateLevel_longest m loggerName Hempty)
    as [(k & Hk & Hget & _)|[Hnone Hdef]].
  - simpl in Hget. apply lookup_singleton_Some in Hget as [<- Hl].
    split; [done|]. by intros [].
  - split; [|done]. intros Hap. apply Hnone in Hap. simpl in Hap.
    by rewrite lookup_singleton_eq in Hap.
Qed.

End LookupProperties.

(** ** The rendered spec says what the configuration is *)

Section SpecProperties.
Context {scale : SeverityScale}.



End SpecProperties.

Section OverrideLocality.
Context {scale : SeverityScale}.

(** X14.  An override has a say only in the lookups of the names its key is
    applicable to: two configurations with the same default level that
    differ at one key only give the same level to every name the key is not
    applicable to. *)
Theorem override_is_local (m m' : ModuleLevels) (key loggerName : string) :
  ¬ applicable loggerName key →
  defaultLevel m = defaultLevel m' →
  (∀ k, k ≠ key → map_get (specs m) k = map_get (specs m') k) →
  calculateLevel m loggerName = calculateLevel m' loggerName.
Proof.
  intros Hnot Hd Hs. apply calculateLevel_agree; [done|].
  intros k Hk. apply Hs. by intros ->.
Qed.

End OverrideLocality.

(** ** The further properties at the concrete scale *)

Lemma stored_keys_are_names_witness :
  "a.b." ≠ ""
  ∧ contains "a.b." colon = false ∧ contains "a.b." equals = false
  ∧ contains "a.b." comma = false
  ∧ (isValidLoggerName "a.b." = true
     ∨ ∃ n, "a.b." = n +:+ "." ∧ isValidLoggerName n = true).
Proof.
  apply (stored_keys_are_names (scale := spec_scale)
           (ActivateSpec "x=WARN:a.b.=ERROR" zero_engine).2 "a.b." ERROR).
  - by apply (activated_by "x=WARN:a.b.=ERROR" zero_engine).
  - by vm_compute.
Defined.

Lemma ActivateSpec_reports_first_witness :
  (∃ pre field post,
     Split "a=DEBUG:b=bogus:c=x=y" colon = pre ++ field :: post
     ∧ Forall (λ f, ¬ rejected f) pre
     ∧ rejected field
     ∧ (BadSegment "a=DEBUG:b=bogus:c=x=y" "b=bogus"
        = BadSegment "a=DEBUG:b=bogus:c=x=y" field
        ∨ BadSegment "a=DEBUG:b=bogus:c=x=y" "b=bogus"
          = NoLoggerSpecified "a=DEBUG:b=bogus:c=x=y" field
        ∨ ∃ loggers levelName logger,
            field = loggers +:+ "=" +:+ levelName
            ∧ contains loggers equals = false
            ∧ logger ∈ Split loggers comma
            ∧ BadSegment "a=DEBUG:b=bogus:c=x=y" "b=bogus"
              = BadLoggerName "a=DEBUG:b=bogus:c=x=y" logger))
  ∧ ∃ detail,
      Error (BadSegment "a=DEBUG:b=bogus:c=x=y" "b=bogus")
      = "invalid logging specification '" +:+ "a=DEBUG:b=bogus:c=x=y"
        +:+ "': " +:+ detail.
Proof.
  apply (ActivateSpec_reports_first (scale := spec_scale)
           "a=DEBUG:b=bogus:c=x=y" zero_engine zero_engine).
  by vm_compute.
Defined.

Lemma ActivateSpec_replaces_witness :
  let m' := (ActivateSpec "a,b=DEBUG:a.=ERROR" zero_engine).2 in
  (∀ m2, ActivateSpec "a,b=DEBUG:a.=ERROR" m2 = (None, m'))
  ∧ (∀ k, is_Some (map_get (specs m') k)
          ↔ k ∈ (assignments "a,b=DEBUG:a.=ERROR").*1)
  ∧ (∀ loggerName, cachedLevel m' loggerName = None).
Proof.
  intros m'.
  apply (ActivateSpec_replaces (scale := spec_scale)
           "a,b=DEBUG:a.=ERROR" zero_engine m').
  by vm_compute.
Defined.

Lemma trailing_colon_resets_default_witness :
  DefaultLevel (ActivateSpec "a=DEBUG:WARN" zero_engine).2 = WARN
  ∧ ActivateSpec "a=DEBUG:WARN:" zero_engine
    = (None, {| defaultLevel := INFO;
                specs := specs (ActivateSpec "a=DEBUG:WARN" zero_engine).2;
                levelCache := Some ∅ |})
  ∧ ∃ e', ActivateSpec "a=bogus:" zero_engine = (Some e', zero_engine).
Proof.
  split; [by vm_compute|]. split.
  - apply (proj1 (trailing_colon_resets_default (scale := spec_scale)
                    "a=DEBUG:WARN" zero_engine)
                 (ActivateSpec "a=DEBUG:WARN" zero_engine).2).
    by vm_compute.
  - apply (proj2 (trailing_colon_resets_default (scale := spec_scale)
                    "a=bogus" zero_engine)
                 (BadSegment "a=bogus" "a=bogus")).
    by vm_compute.
Defined.

Lemma ActivateSpec_joined_witness :
  let m1 := (ActivateSpec "a=DEBUG:b=WARN:ERROR" zero_engine).2 in
  let m2 := (ActivateSpec "a=INFO" zero_engine).2 in
  ∃ m12,
    ActivateSpec ("a=DEBUG:b=WARN:ERROR" +:+ ":" +:+ "a=INFO") zero_engine
    = (None, m12)
    ∧ DefaultLevel m12
      = from_option NameToLevel (DefaultLevel m1) (last (defaultFields "a=INFO"))
    ∧ ∀ k, map_get (specs m12) k
           = match map_get (specs m2) k with
             | Some l => Some l
             | None => map_get (specs m1) k
             end.
Proof.
  intros m1 m2.
  apply (ActivateSpec_joined (scale := spec_scale)
           "a=DEBUG:b=WARN:ERROR" "a=INFO" zero_engine m1 m2);
    by vm_compute.
Defined.

Lemma Level_memoizes_witness :
  ∃ m', Level "a.b" (ActivateSpec "a=DEBUG" zero_engine).2 = Some (DEBUG, m')
        ∧ Level "a.b" m' = Some (DEBUG, m')
        ∧ cachedLevel m' "a.b" = Some DEBUG.
Proof.
  destruct (Level "a.b" (ActivateSpec "a=DEBUG" zero_engine).2)
    as [[l m']|] eqn:HL; [|by vm_compute in HL].
  assert (l = DEBUG) as -> by (vm_compute in HL; by injection HL).
  exists m'. split; [done|].
  destruct (Level_memoizes (scale := spec_scale) "a.b" _ m' DEBUG HL)
    as (Hagain & Hcached & _).
  done.
Defined.

Lemma reads_change_nothing_witness :
  let m := (ActivateSpec "a=DEBUG:WARN" zero_engine).2 in
  ∃ outs m',
    run [OpLevel "a.b"; OpSpec; OpLevel "c"; OpDefaultLevel] m
    = Some (outs, m')
    ∧ DefaultLevel m' = DefaultLevel m
    ∧ Spec m' = Spec m
    ∧ ∀ loggerName,
        fst <$> Level loggerName m' = fst <$> Level loggerName m.
Proof.
  intros m.
  apply (reads_change_nothing (scale := spec_scale)
           [OpLevel "a.b"; OpSpec; OpLevel "c"; OpDefaultLevel] m).
  - by apply (activated_by "a=DEBUG:WARN" zero_engine).
  - by repeat constructor.
Defined.

Lemma single_override_witness :
  let m := {| defaultLevel := INFO; specs := Some {["a.b" := DEBUG]};
              levelCache := Some ∅ |} in
  (applicable "a.b.c" "a.b" → calculateLevel m "a.b.c" = DEBUG)
  ∧ (¬ applicable "a.b.c" "a.b" → calculateLevel m "a.b.c" = INFO).
Proof.
  apply (single_override (scale := spec_scale) INFO DEBUG (Some ∅)
           "a.b" "a.b.c").
  done.
Defined.


Lemma override_is_local_witness :
  let m := {| defaultLevel := INFO;
              specs := Some {["a.b" := DEBUG; "a" := WARN]};
              levelCache := Some ∅ |} in
  let m' := {| defaultLevel := INFO; specs := Some {["a" := WARN]};
               levelCache := None |} in
  calculateLevel m "a.c" = calculateLevel m' "a.c".
Proof.
  intros m m'.
  apply (override_is_local (scale := spec_scale) m m' "a.b" "a.c").
  - intros [[=]|[[=]|[rest [=]]]].
  - done.
  - intros k Hk. simpl. by rewrite lookup_insert_ne.
Defined.
